(** * Laplace inpainting by Jacobi and SOR relaxation (iterative_solver.py)

    A shallow embedding of the solver module: numpy arrays as shaped
    row-major buffers of binary64 floats, the Python object store as an
    explicit heap of arrays addressed by references, and exceptions as an
    outcome threaded through a small state-and-error monad. *)

From Stdlib Require Import ZArith Floats Lia.
From stdpp Require Import base tactics option list sorting.

Set Warnings "-inexact-float".

Local Open Scope Z_scope.
Local Open Scope nat_scope.

(** ** numpy arrays *)

(** A two-dimensional array: its shape and its C-contiguous buffer. *)
Record ndarray (A : Type) := NDArray {
  nrows : nat;
  ncols : nat;
  data : list A
}.
Arguments NDArray {A} _ _ _.
Arguments nrows {A} _.
Arguments ncols {A} _.
Arguments data {A} _.

Definition shape {A} (u : ndarray A) : nat * nat := (nrows u, ncols u).

(** The buffer holds exactly one value per cell. *)
Definition wf {A} (u : ndarray A) : Prop :=
  length (data u) = nrows u * ncols u.

(** Python exceptions the module can meet.  [DanglingRef] is not a Python
    exception: it marks a reference that is absent from the store, which
    no run started from a live reference produces. *)
Inductive exn := IndexError | ValueError | DanglingRef.

Inductive outcome (A : Type) :=
| Ret (a : A)
| Raise (e : exn).
Arguments Ret {A} a.
Arguments Raise {A} e.

(** [u[i, j]] for in-range, non-negative indices. *)
Definition get {A} (u : ndarray A) (i j : nat) : outcome A :=
  if decide (i < nrows u ∧ j < ncols u)
  then match data u !! (i * ncols u + j) with
       | Some x => Ret x
       | None => Raise IndexError
       end
  else Raise IndexError.

(** [u[i, j] = v], on the value of the array. *)
Definition set {A} (u : ndarray A) (i j : nat) (v : A) : ndarray A :=
  NDArray (nrows u) (ncols u) (<[i * ncols u + j := v]> (data u)).

(** Reading a cell that is known to exist (used to tabulate). *)
Definition cell (u : ndarray float) (i j : nat) : float :=
  nth (i * ncols u + j) (data u) 0%float.

Definition tabulate (r c : nat) (f : nat → nat → float) : ndarray float :=
  NDArray r c (flat_map (λ i, map (f i) (seq 0 c)) (seq 0 r)).

(** [np.roll(u, shift, axis)]: the element at index [k] along the axis
    moves to index [(k + shift) mod n]; so the result at [k] is the input
    at [(k - shift) mod n].  Axis 0 runs over rows, axis 1 over columns. *)
Definition rolled (n : nat) (shift : Z) (k : nat) : nat :=
  Z.to_nat ((Z.of_nat k - shift) mod Z.of_nat n).

Definition roll (u : ndarray float) (shift : Z) (axis : nat) : ndarray float :=
  match axis with
  | O => tabulate (nrows u) (ncols u) (λ i j, cell u (rolled (nrows u) shift i) j)
  | _ => tabulate (nrows u) (ncols u) (λ i j, cell u i (rolled (ncols u) shift j))
  end.

(** [a + b] on arrays of one shape, and [a / c] by a scalar. *)
Definition arr_add (a b : ndarray float) : ndarray float :=
  NDArray (nrows a) (ncols a) (zip_with PrimFloat.add (data a) (data b)).

Definition arr_div (a : ndarray float) (c : float) : ndarray float :=
  NDArray (nrows a) (ncols a) (map (λ x, x / c)%float (data a)).

(** Values of [xs] at the positions where [bs] is true, in buffer order. *)
Fixpoint select {A} (bs : list bool) (xs : list A) : list A :=
  match bs, xs with
  | b :: bs', x :: xs' => if b then x :: select bs' xs' else select bs' xs'
  | _, _ => []
  end.

(** Whether numpy takes [mask] as a boolean index of [u]: an axis of the
    mask is compared with the array's only when it is not empty. *)
Definition mask_fits {A} (mask : ndarray bool) (u : ndarray A) : Prop :=
  (nrows mask = 0 ∨ nrows mask = nrows u) ∧ (ncols mask = 0 ∨ ncols mask = ncols u).

Global Instance mask_fits_dec {A} (mask : ndarray bool) (u : ndarray A) :
  Decision (mask_fits mask u) :=
  and_dec (or_dec (decide (nrows mask = 0)) (decide (nrows mask = nrows u)))
          (or_dec (decide (ncols mask = 0)) (decide (ncols mask = ncols u))).

(** [u[mask]] with a two-dimensional boolean mask.  A mask of the array's
    shape selects the cells where it is true.  A mask of another shape
    raises IndexError, unless the axes that differ are empty: such a mask
    has no cell and selects nothing. *)
Definition bool_index (u : ndarray float) (mask : ndarray bool) : outcome (list float) :=
  if decide (shape mask = shape u)
  then Ret (select (data mask) (data u))
  else if decide (mask_fits mask u)
       then Ret []
       else Raise IndexError.

(** The positions of [xs] where [bs] is true receive [vals], in order. *)
Fixpoint scatter {A} (bs : list bool) (xs vals : list A) : list A :=
  match bs, xs with
  | b :: bs', x :: xs' =>
      if b then
        match vals with
        | v :: vals' => v :: scatter bs' xs' vals'
        | [] => x :: scatter bs' xs' []
        end
      else x :: scatter bs' xs' vals
  | _, _ => xs
  end.

(** [u[mask] = vals], on the value of the array.  The mask is taken as
    by [bool_index]; [vals] holds one value per selected cell, or a single
    value, which numpy gives to every selected cell; other lengths raise
    ValueError. *)
Definition bool_assign (u : ndarray float) (mask : ndarray bool) (vals : list float)
  : outcome (ndarray float) :=
  if decide (shape mask = shape u)
  then if decide (length vals = length (select (data mask) (data u)))
       then Ret (NDArray (nrows u) (ncols u) (scatter (data mask) (data u) vals))
       else match vals with
            | [v] =>
                Ret (NDArray (nrows u) (ncols u)
                       (scatter (data mask) (data u)
                          (repeat v (length (select (data mask) (data u))))))
            | _ => Raise ValueError
            end
  else if decide (mask_fits mask u)
       then match vals with
            | [] | [_] => Ret u
            | _ => Raise ValueError
            end
       else Raise IndexError.

(** One-dimensional arithmetic: [c * v], [a + b], [a - b]. *)
Definition vec_scale (c : float) (v : list float) : list float :=
  map (λ x, c * x)%float v.
Definition vec_add (a b : list float) : list float := zip_with PrimFloat.add a b.
Definition vec_sub (a b : list float) : list float := zip_with PrimFloat.sub a b.

(** [np.linalg.norm] of a real vector is [sqrt(x.dot(x))]; the dot product
    is accumulated from the left, starting at zero. *)
Definition dot (a b : list float) : float :=
  fold_left (λ acc p, acc + fst p * snd p)%float (zip a b) 0%float.

Definition norm (x : list float) : float := PrimFloat.sqrt (dot x x).

(** ** The object store and the monad of the module *)

Abbreviation loc := nat (only parsing).
Abbreviation heap := (list (ndarray float)).

Definition M (A : Type) : Type := heap → heap * outcome A.

Global Instance M_ret : MRet M := λ A a h, (h, Ret a).
Global Instance M_bind : MBind M := λ A B f m h,
  match m h with
  | (h', Ret a) => f a h'
  | (h', Raise e) => (h', Raise e)
  end.

(** A pure numpy operation inside the monad. *)
Definition lift {A} (o : outcome A) : M A := λ h, (h, o).

(** The array a reference points to. *)
Definition load (l : loc) : M (ndarray float) := λ h,
  match h !! l with
  | Some a => (h, Ret a)
  | None => (h, Raise DanglingRef)
  end.

(** [u.copy()]: a fresh array with the same contents. *)
Definition ndarray_copy (l : loc) : M loc := λ h,
  match h !! l with
  | Some a => (h ++ [a], Ret (length h))
  | None => (h, Raise DanglingRef)
  end.

(** Overwrite the array behind a reference. *)
Definition store (l : loc) (a : ndarray float) : M unit := λ h,
  (<[l := a]> h, Ret tt).

Definition getitem (l : loc) (i j : nat) : M float :=
  u ← load l; lift (get u i j).

Definition setitem (l : loc) (i j : nat) (v : float) : M unit :=
  u ← load l; store l (set u i j v).

Definition setitem_mask (l : loc) (mask : ndarray bool) (vals : list float) : M unit :=
  u ← load l; u' ← lift (bool_assign u mask vals); store l u'.

(** [for x in xs: body(x)] *)
Fixpoint for_ {A} (xs : list A) (body : A → M unit) : M unit :=
  match xs with
  | [] => mret tt
  | x :: xs' => body x ≫= λ _, for_ xs' body
  end.

(** [range(lo, hi)] over non-negative bounds, and [range(n)] for a Python
    integer [n] (empty when [n <= 0]). *)
Definition range (lo hi : nat) : list nat := seq lo (hi - lo).
Definition range_Z (n : Z) : list Z := map Z.of_nat (seq 0 (Z.to_nat n)).

(** ** The steppers *)

Definition step_jacobi_2D (u : loc) (mask : ndarray bool) (omega : float) : M loc :=
  u_new ← ndarray_copy u;
  uv ← load u;
  let avg_neighbors :=
    arr_div (arr_add (arr_add (arr_add (roll uv 1 0) (roll uv (-1) 0))
                               (roll uv 1 1))
                     (roll uv (-1) 1)) 4%float in
  um ← lift (bool_index uv mask);
  am ← lift (bool_index avg_neighbors mask);
  setitem_mask u_new mask
    (vec_add (vec_scale (1 - omega)%float um) (vec_scale omega am));;
  mret u_new.

Definition sor_body (u : loc) (mask : ndarray bool) (omega : float) (i j : nat) : M unit :=
  m ← lift (get mask i j);
  if m : bool then
    dn ← getitem u (i + 1) j;
    up ← getitem u (i - 1) j;
    rt ← getitem u i (j + 1);
    lf ← getitem u i (j - 1);
    let avg := ((dn + up + rt + lf) / 4)%float in
    old ← getitem u i j;
    setitem u i j ((1 - omega) * old + omega * avg)%float
  else mret tt.

(** With fewer than three rows or columns the ranges are empty, as
    [range(1, nrows - 1)] is in Python. *)
Definition step_sor_2D (u : loc) (mask : ndarray bool) (omega : float) : M loc :=
  uv ← load u;
  let '(nrows, ncols) := shape uv in
  for_ (range 1 (nrows - 1)) (λ i,
    for_ (range 1 (ncols - 1)) (λ j,
      sor_body u mask omega i j));;
  mret u.

(** ** The solvers *)

(** The body of [for it in range(max_iter)] in [inpaint_jacobi], over the
    remaining indices [its]; falling off the end returns [max_iter]. *)
Fixpoint jacobi_loop (its : list Z) (u : loc) (mask : ndarray bool)
    (tol : float) (max_iter : Z) (omega : float) : M (loc * Z) :=
  match its with
  | [] => mret (u, max_iter)
  | it :: its' =>
      u_new ← step_jacobi_2D u mask omega;
      a ← load u_new;
      x ← lift (bool_index a mask);
      b ← load u;
      y ← lift (bool_index b mask);
      let diff := norm (vec_sub x y) in
      if (diff <? tol)%float then mret (u_new, (it + 1)%Z)
      else jacobi_loop its' u_new mask tol max_iter omega
  end.

Definition inpaint_jacobi (image : loc) (mask : ndarray bool)
    (tol : float) (max_iter : Z) (omega : float) : M (loc * Z) :=
  u ← ndarray_copy image;
  jacobi_loop (range_Z max_iter) u mask tol max_iter omega.

Fixpoint sor_loop (its : list Z) (u : loc) (mask : ndarray bool)
    (tol : float) (max_iter : Z) (omega : float) : M (loc * Z) :=
  match its with
  | [] => mret (u, max_iter)
  | it :: its' =>
      u_old ← ndarray_copy u;
      u' ← step_sor_2D u mask omega;
      a ← load u';
      x ← lift (bool_index a mask);
      b ← load u_old;
      y ← lift (bool_index b mask);
      let diff := norm (vec_sub x y) in
      if (diff <? tol)%float then mret (u', (it + 1)%Z)
      else sor_loop its' u' mask tol max_iter omega
  end.

Definition inpaint_sor (image : loc) (mask : ndarray bool)
    (tol : float) (max_iter : Z) (omega : float) : M (loc * Z) :=
  u ← ndarray_copy image;
  sor_loop (range_Z max_iter) u mask tol max_iter omega.

(** ** The omega search *)

(** Ceiling of a binary64 value as an integer (zero on infinities and NaN,
    which the default grid below never meets). *)
Definition ceil_Z (x : float) : Z :=
  match Prim2SF x with
  | S754_finite s m e =>
      let n := if s then Z.neg m else Z.pos m in
      match e with
      | Z.neg p => (- ((- n) / 2 ^ Z.pos p))%Z
      | _ => (n * 2 ^ e)%Z
      end
  | _ => 0%Z
  end.

Definition float_of_nat (i : nat) : float :=
  PrimFloat.of_uint63 (Uint63.of_Z (Z.of_nat i)).

(** [np.arange(start, stop, step)] on doubles: [ceil((stop - start) / step)]
    values; the first two are [start] and [start + step], the others
    [start + i * delta] with [delta] the difference of the first two. *)
Definition arange (start stop step : float) : list float :=
  let len := Z.to_nat (ceil_Z ((stop - start) / step)%float) in
  let next := (start + step)%float in
  let delta := (next - start)%float in
  map (λ i, match i with
            | 0 => start
            | 1 => next
            | _ => (start + float_of_nat i * delta)%float
            end) (seq 0 len).

(** The body of [for omega in omega_values], threading [best_omega] and
    [fewest_iters]. *)
Fixpoint omega_loop (omegas : list float) (image : loc) (mask : ndarray bool)
    (nIter : Z) (abstol : float) (best_omega : option float) (fewest_iters : Z)
  : M (option float * Z) :=
  match omegas with
  | [] => mret (best_omega, fewest_iters)
  | omega :: rest =>
      r ← inpaint_sor image mask abstol nIter omega;
      let iters := r.2 in
      if (iters <? fewest_iters)%Z
      then omega_loop rest image mask nIter abstol (Some omega) iters
      else omega_loop rest image mask nIter abstol best_omega fewest_iters
  end.

Definition find_optimal_omega_sor (image : loc) (mask : ndarray bool)
    (omega_values : option (list float)) (nIter : Z) (abstol : float)
  : M (option float * Z) :=
  let omega_values :=
    match omega_values with
    | None => arange 1 2 0.05
    | Some l => l
    end in
  omega_loop omega_values image mask nIter abstol None nIter.

(** ** What the steppers compute, on array values

    The run of a stepper on the store is determined by the array behind
    its argument; these are the values the runs below are shown to
    produce. *)

Definition neighbor_average (u : ndarray float) : ndarray float :=
  arr_div (arr_add (arr_add (arr_add (roll u 1 0) (roll u (-1) 0))
                             (roll u 1 1))
                   (roll u (-1) 1)) 4%float.

Definition jacobi_step (mask : ndarray bool) (omega : float) (u : ndarray float)
  : ndarray float :=
  NDArray (nrows u) (ncols u)
    (scatter (data mask) (data u)
       (vec_add (vec_scale (1 - omega)%float (select (data mask) (data u)))
                (vec_scale omega (select (data mask) (data (neighbor_average u)))))).

(** The interior cells in row-major order: rows 1 to [r - 2], and in each
    row columns 1 to [c - 2]. *)
Definition sor_cells (r c : nat) : list (nat * nat) :=
  flat_map (λ i, map (pair i) (range 1 (c - 1))) (range 1 (r - 1)).

(** The update of one visited cell, reading the array as it stands. *)
Definition sor_cell (mask : ndarray bool) (omega : float)
    (u : ndarray float) (p : nat * nat) : ndarray float :=
  let '(i, j) := p in
  match get mask i j with
  | Ret true =>
      let avg := ((cell u (i + 1) j + cell u (i - 1) j
                   + cell u i (j + 1) + cell u i (j - 1)) / 4)%float in
      set u i j ((1 - omega) * cell u i j + omega * avg)%float
  | _ => u
  end.

Definition sor_sweep (mask : ndarray bool) (omega : float) (u : ndarray float)
  : ndarray float :=
  fold_left (sor_cell mask omega) (sor_cells (nrows u) (ncols u)) u.

(** The solver loop over a stepper on values: the change of the masked
    cells in one step, and the loop with its early return. *)
Section Relaxation.
Variable step : ndarray float → ndarray float.
Variable mask : ndarray bool.
Variable tol : float.
Variable max_iter : Z.

Definition change (u : ndarray float) : float :=
  norm (vec_sub (select (data mask) (data (step u)))
                (select (data mask) (data u))).

Fixpoint relax (its : list Z) (u : ndarray float) : ndarray float * Z :=
  match its with
  | [] => (u, max_iter)
  | it :: its' =>
      if (change u <? tol)%float then (step u, (it + 1)%Z)
      else relax its' (step u)
  end.

Definition iterate (k : nat) (u : ndarray float) : ndarray float :=
  Nat.iter k step u.
End Relaxation.

(** The data-model invariant of a solver call: the image is live in the
    store, image and mask are well-formed and of one shape. *)
Definition valid_input (h : heap) (image : loc) (g : ndarray float)
    (mask : ndarray bool) : Prop :=
  h !! image = Some g ∧ wf g ∧ wf mask ∧ shape mask = shape g.

Definition border {A} (u : ndarray A) (i j : nat) : Prop :=
  i = 0 ∨ j = 0 ∨ i + 1 = nrows u ∨ j + 1 = ncols u.

Definition interior {A} (u : ndarray A) (i j : nat) : Prop :=
  1 ≤ i ∧ i + 1 < nrows u ∧ 1 ≤ j ∧ j + 1 < ncols u.

(** Lexicographic order on cells: the order of a row-major sweep. *)
Definition row_major_lt (p q : nat * nat) : Prop :=
  p.1 < q.1 ∨ (p.1 = q.1 ∧ p.2 < q.2).

(** ** The search on values *)

(** The selection made by the search loop, given the iteration count of
    each candidate. *)
Fixpoint pick (count : float → Z) (omegas : list float)
    (best_omega : option float) (fewest_iters : Z) : option float * Z :=
  match omegas with
  | [] => (best_omega, fewest_iters)
  | omega :: rest =>
      if (count omega <? fewest_iters)%Z
      then pick count rest (Some omega) (count omega)
      else pick count rest best_omega fewest_iters
  end.

(** The iteration count of the SOR solver on an image, as a function of
    the candidate. *)
Definition sor_count (g : ndarray float) (mask : ndarray bool) (tol : float)
    (max_iter : Z) (omega : float) : Z :=
  (relax (sor_sweep mask omega) mask tol max_iter (range_Z max_iter) g).2.

(** A run that ends in an exception. *)
Definition rejected {A} (run : heap * outcome A) : Prop :=
  ∃ h' e, run = (h', Raise e).

(** ** Predicates of the statements *)

(** The result of a solver call, as the caller sees it: a new array of the
    image's shape that agrees with the image wherever the mask is false,
    in a store whose earlier arrays, the image among them, are as they
    were. *)
Definition fresh_result_keeping_unmasked (h : heap) (image : loc)
    (g : ndarray float) (mask : ndarray bool) (run : heap * outcome (loc * Z)) : Prop :=
  ∃ ext r n G,
    run = (h ++ ext, Ret (r, n))
    ∧ (h ++ ext) !! r = Some G
    ∧ r ≠ image
    ∧ (h ++ ext) !! image = Some g
    ∧ shape G = shape g
    ∧ (∀ i j, get mask i j = Ret false → get G i j = get g i j).

(** A specification float that is not below zero: a zero of either sign,
    a positive number, plus infinity, or NaN. *)
Definition not_negative (f : spec_float) : Prop :=
  match f with
  | S754_infinity true | S754_finite true _ _ => False
  | _ => True
  end.

(** ** Sample inputs *)

(** A 3x3 image of ones whose centre is unknown. *)
Definition image3 : ndarray float := NDArray 3 3 [1; 1; 1; 1; 0; 1; 1; 1; 1]%float.
Definition mask3 : ndarray bool :=
  NDArray 3 3 [false; false; false; false; true; false; false; false; false].

(** A 3x4 image with two unknown cells side by side. *)
Definition image34 : ndarray float :=
  NDArray 3 4 [1; 1; 1; 1; 1; 0; 0; 1; 1; 1; 1; 2]%float.
Definition mask34 : ndarray bool :=
  NDArray 3 4 [false; false; false; false; false; true; true; false;
               false; false; false; false].

(** The 10x10 grid of zeros with a hot corner of 100, every other cell
    unknown. *)
Definition hot_corner : ndarray float :=
  NDArray 10 10 (100%float :: repeat 0%float 99).
Definition corner_mask : ndarray bool :=
  NDArray 10 10 (false :: repeat true 99).

(** The four neighbours of the corner on the torus. *)
Definition corner_neighbours : list (nat * nat) := [(1, 0); (9, 0); (0, 1); (0, 9)].

(** A mask with nothing to fill in. *)
Definition no_mask3 : ndarray bool := NDArray 3 3 (repeat false 9).

(** A 5x5 image and a mask of three rows only. *)
Definition image5 : ndarray float := NDArray 5 5 (repeat 1%float 25).
Definition mask35 : ndarray bool := NDArray 3 5 (repeat true 15).

(** A mask of two rows and three columns, enough to cover the interior
    of a 3x4 image. *)
Definition mask23 : ndarray bool := NDArray 2 3 [false; false; false; false; true; true].

(** A single row of four values with a mask. *)
Definition row4 : ndarray float := NDArray 1 4 [1; 0; 0; 2]%float.
Definition row4_mask : ndarray bool := NDArray 1 4 [false; true; true; false].

(** ** The demonstration script *)

(** [np.zeros_like(u, dtype=bool)] *)
Definition zeros_like_bool (u : ndarray float) : ndarray bool :=
  NDArray (nrows u) (ncols u) (repeat false (nrows u * ncols u)).

(** Whether index [i] of an axis of length [n] is selected by the slice
    [lo:hi] (non-negative bounds, step one): the bounds are clipped to the
    length of the axis. *)
Definition in_slice (lo hi n i : nat) : bool :=
  bool_decide (Nat.min lo n ≤ i ∧ i < Nat.min hi n).

(** [m[r0:r1, c0:c1] = v], on the value of the array. *)
Definition slice_assign {A} (m : ndarray A) (r0 r1 c0 c1 : nat) (v : A) : ndarray A :=
  NDArray (nrows m) (ncols m)
    (imap (λ k x, if in_slice r0 r1 (nrows m) (k / ncols m)
                     && in_slice c0 c1 (ncols m) (k mod ncols m)
                  then v else x)
          (data m)).

(** [u[mask] = v] with a scalar [v], which numpy broadcasts to one value
    per true cell. *)
Definition bool_assign_scalar (u : ndarray float) (mask : ndarray bool) (v : float)
  : outcome (ndarray float) :=
  bool_assign u mask (repeat v (length (select (data mask) (data u)))).

Definition setitem_mask_scalar (l : loc) (mask : ndarray bool) (v : float) : M unit :=
  u ← load l; u' ← lift (bool_assign_scalar u mask v); store l u'.

(** The script's body after [image = np.loadtxt('image.txt')]; the
    plotting of the four images, which reads them only, is left out.
    [image] refers to the numbers of the file as a matrix, one row per
    line.  [np.loadtxt] drops the axes of length one, so a file of fewer
    than two lines or fewer than two columns gives an array of fewer than
    two dimensions: [np.zeros_like] accepts it, and the two-dimensional
    slice [mask[60:70, 30:70]] raises IndexError.  The solvers run with
    their default arguments.  The result collects the script's variables
    [mask], [damaged], [(refined_jacobi, it_jacobi)] and
    [(refined_sor, it_sor)]. *)
Definition main (image : loc) : M (ndarray bool * loc * (loc * Z) * (loc * Z)) :=
  img ← load image;
  if decide (2 ≤ nrows img ∧ 2 ≤ ncols img) then
    let mask := slice_assign (zeros_like_bool img) 60 70 30 70 true in
    damaged ← ndarray_copy image;
    setitem_mask_scalar damaged mask 0%float;;
    jacobi ← inpaint_jacobi damaged mask 1e-10 1000 1;
    sor ← inpaint_sor damaged mask 1e-10 1000 1;
    mret (mask, damaged, jacobi, sor)
  else lift (Raise IndexError).

(** The rectangle the script blanks out: rows 60 to 69, columns 30 to 69. *)
Definition in_hole (i j : nat) : Prop := 60 ≤ i < 70 ∧ 30 ≤ j < 70.

(** An image that reaches into the rectangle, and one that does not. *)
Definition image_62_32 : ndarray float := NDArray 62 32 (repeat 1%float (62 * 32)).
Definition image_4_80 : ndarray float := NDArray 4 80 (repeat 1%float (4 * 80)).

(** The mask of the script for a loaded image, and the image with the
    masked cells set to a value. *)
Definition script_mask (g : ndarray float) : ndarray bool :=
  slice_assign (zeros_like_bool g) 60 70 30 70 true.

Definition blank (mask : ndarray bool) (v : float) (u : ndarray float) : ndarray float :=
  NDArray (nrows u) (ncols u)
    (scatter (data mask) (data u) (repeat v (length (select (data mask) (data u))))).

(** ** The guessing game (guess.py) *)

Module Guess.

(** The exceptions the game can end in: [int(...)] on a line that is not
    an integer and [random.randint] on an empty range raise ValueError,
    [input] at the end of the input raises EOFError. *)
Inductive exn := ValueError | EOFError.

(** What the game writes: the prompt "Guess the number between 1 and x: "
    and the three messages "Too low. Try again", "Too high. Try again"
    and "Congratulations you've guessed it right". *)
Inductive output := Prompt (x : Z) | TooLow | TooHigh | Congratulations.

(** How a run ends: the function returns, or an exception leaves it. *)
Inductive ending := Returned | Raised (e : exn).

(** The message after a guess [n] for the number [r]. *)
Definition hint (r n : Z) : list output :=
  if (n <? r)%Z then [TooLow]
  else if (r <? n)%Z then [TooHigh]
  else [].

(** The [while guess != random_number] loop and the final message.  The
    lines still to be read are [inputs], each the integer [int] makes of
    it, or [None] where [int] rejects it.  The result is what was
    written, how the run ended and the lines left unread. *)
Fixpoint guess_loop (x random_number guess : Z) (inputs : list (option Z))
  : list output * ending * list (option Z) :=
  if (guess =? random_number)%Z then ([Congratulations], Returned, inputs)
  else
    match inputs with
    | [] => ([Prompt x], Raised EOFError, [])
    | None :: rest => ([Prompt x], Raised ValueError, rest)
    | Some n :: rest =>
        let '(out, e, unread) := guess_loop x random_number n rest in
        (Prompt x :: hint random_number n ++ out, e, unread)
    end.

(** [guess(x)], given the number [random.randint(1, x)] draws, which lies
    between 1 and [x]; for [x < 1] the range is empty and nothing is
    drawn. *)
Definition guess (x random_number : Z) (inputs : list (option Z))
  : list output * ending * list (option Z) :=
  if (x <? 1)%Z then ([], Raised ValueError, inputs)
  else guess_loop x random_number 0 inputs.

(** The prompt and the hint of each guess of a list. *)
Definition rounds (x random_number : Z) (guesses : list Z) : list output :=
  flat_map (λ n, Prompt x :: hint random_number n) guesses.

End Guess.

(** A mask without rows, for a 2x4 image and for a 3x5 image. *)
Definition image24 : ndarray float := NDArray 2 4 [1; 0; 0; 1; 1; 1; 1; 2]%float.
Definition mask04 : ndarray bool := NDArray 0 4 [].
Definition image35 : ndarray float := NDArray 3 5 (repeat 1%float 15).
Definition mask05 : ndarray bool := NDArray 0 5 [].

(** * Properties *)

(** ** Running the monad *)

Lemma bind_run {A B} (m : M A) (f : A → M B) (h : heap) :
  (m ≫= f) h = match m h with
               | (h', Ret a) => f a h'
               | (h', Raise e) => (h', Raise e)
               end.
Proof. reflexivity. Qed.

Lemma bind_ret {A B} (m : M A) (f : A → M B) (h h' : heap) (a : A) :
  m h = (h', Ret a) → (m ≫= f) h = f a h'.
Proof. intros E. rewrite bind_run, E. reflexivity. Qed.

Lemma bind_raise {A B} (m : M A) (f : A → M B) (h h' : heap) (e : exn) :
  m h = (h', Raise e) → (m ≫= f) h = (h', Raise e).
Proof. intros E. rewrite bind_run, E. reflexivity. Qed.

(** Continue a run past a command whose result is known. *)
Tactic Notation "step_with" uconstr(E) := rewrite (bind_ret _ _ _ _ _ E).

Lemma bind_lift {A B} (o : outcome A) (f : A → M B) (h : heap) :
  (lift o ≫= f) h = match o with
                    | Ret a => f a h
                    | Raise e => (h, Raise e)
                    end.
Proof. rewrite bind_run. unfold lift. destruct o; reflexivity. Qed.

Lemma load_run (l : loc) (h : heap) (a : ndarray float) :
  h !! l = Some a → load l h = (h, Ret a).
Proof. intros E. unfold load. rewrite E. reflexivity. Qed.

Lemma ndarray_copy_run (l : loc) (h : heap) (a : ndarray float) :
  h !! l = Some a → ndarray_copy l h = (h ++ [a], Ret (length h)).
Proof. intros E. unfold ndarray_copy. rewrite E. reflexivity. Qed.

Lemma lookup_fresh (h : heap) (a : ndarray float) :
  (h ++ [a]) !! length h = Some a.
Proof. rewrite lookup_app_r by lia. rewrite Nat.sub_diag. reflexivity. Qed.

Lemma lookup_old (h ext : heap) (l : loc) (a : ndarray float) :
  h !! l = Some a → (h ++ ext) !! l = Some a.
Proof. intros E. apply lookup_app_l_Some. exact E. Qed.

Lemma insert_same (h : heap) (l : loc) (a : ndarray float) :
  h !! l = Some a → <[l := a]> h = h.
Proof. apply list_insert_id. Qed.

Lemma insert_fresh (h ext : heap) (a b : ndarray float) :
  <[length h := b]> (h ++ a :: ext) = h ++ b :: ext.
Proof. induction h as [|x h IH]; simpl; [reflexivity|]. f_equal. exact IH. Qed.

Lemma lookup_fresh_mid (h ext : heap) (a : ndarray float) :
  (h ++ a :: ext) !! length h = Some a.
Proof. induction h as [|x h IH]; simpl; [reflexivity|exact IH]. Qed.

(** ** Loops *)

Lemma for__app {A} (xs ys : list A) (body : A → M unit) (h : heap) :
  for_ (xs ++ ys) body h = (for_ xs body ≫= λ _, for_ ys body) h.
Proof.
  revert h. induction xs as [|x xs IH]; intros h; simpl.
  - reflexivity.
  - rewrite !bind_run. destruct (body x h) as [h1 [[]|e]]; [|reflexivity].
    rewrite IH. reflexivity.
Qed.

Lemma for__map {A B} (f : A → B) (xs : list A) (body : B → M unit) (h : heap) :
  for_ (map f xs) body h = for_ xs (λ x, body (f x)) h.
Proof.
  revert h. induction xs as [|x xs IH]; intros h; simpl; [reflexivity|].
  rewrite !bind_run. destruct (body (f x) h) as [h1 [[]|e]]; [|reflexivity].
  apply IH.
Qed.

(** Two nested loops visit the pairs of the product in row-major order. *)
Lemma for__nested {A B} (xs : list A) (ys : list B) (body : A → B → M unit) (h : heap) :
  for_ xs (λ x, for_ ys (λ y, body x y)) h
  = for_ (flat_map (λ x, map (pair x) ys) xs) (λ p, body p.1 p.2) h.
Proof.
  revert h. induction xs as [|x xs IH]; intros h; simpl; [reflexivity|].
  rewrite for__app, !bind_run, for__map. simpl.
  destruct (for_ ys (λ y, body x y) h) as [h1 [[]|e]]; [|reflexivity].
  apply IH.
Qed.

(** ** Buffers: selection and scattering under a mask *)

Lemma select_length_eq {A B} (bs : list bool) (xs : list A) (ys : list B) :
  length xs = length ys → length (select bs xs) = length (select bs ys).
Proof.
  revert xs ys. induction bs as [|b bs IH]; intros [|x xs] [|y ys] E;
    simpl in *; try reflexivity; try discriminate.
  injection E as E. destruct b; simpl; auto.
Qed.

Lemma length_scatter {A} (bs : list bool) (xs vals : list A) :
  length (scatter bs xs vals) = length xs.
Proof.
  revert xs vals. induction bs as [|b bs IH]; intros [|x xs] vals; simpl; try reflexivity.
  destruct b; [destruct vals|]; simpl; rewrite IH; reflexivity.
Qed.

Lemma scatter_lookup_false {A} (bs : list bool) (xs vals : list A) (k : nat) :
  bs !! k = Some false → scatter bs xs vals !! k = xs !! k.
Proof.
  revert xs vals k. induction bs as [|b bs IH]; intros [|x xs] vals k E;
    simpl in *; try reflexivity.
  destruct k as [|k]; simpl in *.
  - injection E as ->. reflexivity.
  - destruct b; [destruct vals|]; simpl; apply IH; exact E.
Qed.

Lemma select_all_false {A} (bs : list bool) (xs : list A) :
  Forall (λ b, b = false) bs → select bs xs = [].
Proof.
  intros F. revert xs. induction F as [|b bs -> _ IH]; intros [|x xs]; simpl; auto.
Qed.

Lemma scatter_nil_vals {A} (bs : list bool) (xs : list A) :
  scatter bs xs [] = xs.
Proof.
  revert xs. induction bs as [|b bs IH]; intros [|x xs]; simpl; try reflexivity.
  destruct b; rewrite IH; reflexivity.
Qed.

Lemma length_tabulate (r c : nat) (f : nat → nat → float) :
  length (data (tabulate r c f)) = r * c.
Proof.
  unfold tabulate. simpl. generalize 0 at 2. induction r as [|r IH]; intros s; simpl.
  - reflexivity.
  - rewrite length_app, length_map, length_seq, IH. reflexivity.
Qed.

Lemma length_roll (u : ndarray float) (shift : Z) (axis : nat) :
  length (data (roll u shift axis)) = nrows u * ncols u.
Proof. destruct axis; apply length_tabulate. Qed.

Lemma length_neighbor_average (u : ndarray float) :
  length (data (neighbor_average u)) = nrows u * ncols u.
Proof.
  unfold neighbor_average, arr_div, arr_add. cbn [data].
  rewrite length_map, !length_zip_with, !length_roll. lia.
Qed.

Lemma shape_neighbor_average (u : ndarray float) :
  shape (neighbor_average u) = shape u.
Proof. destruct u; reflexivity. Qed.

(** ** The Jacobi stepper on values *)

Lemma shape_jacobi_step (mask : ndarray bool) (omega : float) (u : ndarray float) :
  shape (jacobi_step mask omega u) = shape u.
Proof. reflexivity. Qed.

Lemma wf_jacobi_step (mask : ndarray bool) (omega : float) (u : ndarray float) :
  wf u → wf (jacobi_step mask omega u).
Proof. unfold wf, jacobi_step. simpl. rewrite length_scatter. auto. Qed.

(** One run of the Jacobi stepper allocates the stepped array and leaves
    every array of the store as it was. *)
Lemma step_jacobi_2D_run (h : heap) (u : loc) (g : ndarray float)
    (mask : ndarray bool) (omega : float) :
  h !! u = Some g → wf g → shape mask = shape g →
  step_jacobi_2D u mask omega h
  = (h ++ [jacobi_step mask omega g], Ret (length h)).
Proof.
  intros Hu Hg Hs. unfold step_jacobi_2D.
  step_with (ndarray_copy_run _ _ _ Hu).
  step_with (load_run _ _ _ (lookup_old _ [g] _ _ Hu)).
  fold (neighbor_average g).
  assert (Hb1 : bool_index g mask = Ret (select (data mask) (data g))).
  { unfold bool_index. rewrite decide_True by exact Hs. reflexivity. }
  assert (Hb2 : bool_index (neighbor_average g) mask
                = Ret (select (data mask) (data (neighbor_average g)))).
  { unfold bool_index. rewrite decide_True; [reflexivity|].
    rewrite shape_neighbor_average. exact Hs. }
  rewrite Hb1, Hb2, !bind_lift. unfold setitem_mask.
  rewrite (bind_ret _ (λ _, mret (length h)) (h ++ [g])
             (h ++ [jacobi_step mask omega g]) tt); [reflexivity|].
  step_with (load_run _ _ _ (lookup_fresh h g)).
  unfold bool_assign. rewrite decide_True by exact Hs.
  rewrite decide_True.
  - rewrite bind_lift. unfold store.
    rewrite insert_fresh. reflexivity.
  - unfold vec_add, vec_scale. rewrite length_zip_with, !length_map.
    rewrite (select_length_eq (data mask) (data (neighbor_average g)) (data g)); [lia|].
    rewrite length_neighbor_average. symmetry. exact Hg.
Qed.

(** ** Cells of an array *)

Lemma index_lt (r c i j : nat) : i < r → j < c → i * c + j < r * c.
Proof.
  intros Hi Hj. apply Nat.lt_le_trans with ((i + 1) * c); [lia|].
  apply Nat.mul_le_mono_r. lia.
Qed.

Lemma index_inj (c i j a b : nat) :
  j < c → b < c → i * c + j = a * c + b → i = a ∧ j = b.
Proof.
  intros Hj Hb E. apply (Nat.div_mod_unique c); [assumption..|lia].
Qed.

Lemma get_lookup {A} (u : ndarray A) (i j : nat) (x : A) :
  get u i j = Ret x ↔
  i < nrows u ∧ j < ncols u ∧ data u !! (i * ncols u + j) = Some x.
Proof.
  unfold get. destruct (decide (i < nrows u ∧ j < ncols u)) as [[Hi Hj]|N].
  - destruct (data u !! (i * ncols u + j)) as [y|] eqn:E.
    + split; [intros [= ->]; auto|intros (_ & _ & [= ->]); reflexivity].
    + split; [discriminate|intros (_ & _ & ?); discriminate].
  - split; [discriminate|intros (? & ? & _); tauto].
Qed.

Lemma get_in_range {A} (u : ndarray A) (i j : nat) :
  wf u → i < nrows u → j < ncols u → ∃ x, get u i j = Ret x.
Proof.
  intros W Hi Hj.
  destruct (lookup_lt_is_Some_2 (data u) (i * ncols u + j)) as [x E].
  { rewrite W. apply index_lt; assumption. }
  exists x. apply get_lookup. auto.
Qed.

Lemma get_cell (u : ndarray float) (i j : nat) :
  wf u → i < nrows u → j < ncols u → get u i j = Ret (cell u i j).
Proof.
  intros W Hi Hj. destruct (get_in_range u i j W Hi Hj) as [x E].
  rewrite E. f_equal. apply get_lookup in E as (_ & _ & E).
  unfold cell. rewrite nth_lookup, E. reflexivity.
Qed.

Lemma shape_set {A} (u : ndarray A) (i j : nat) (v : A) :
  shape (set u i j v) = shape u.
Proof. reflexivity. Qed.

Lemma wf_set {A} (u : ndarray A) (i j : nat) (v : A) :
  wf u → wf (set u i j v).
Proof. unfold wf, set. simpl. rewrite length_insert. auto. Qed.

Lemma get_set_eq {A} (u : ndarray A) (i j : nat) (v : A) :
  wf u → i < nrows u → j < ncols u → get (set u i j v) i j = Ret v.
Proof.
  intros W Hi Hj. apply get_lookup. simpl. repeat split; try assumption.
  apply list_lookup_insert_eq. rewrite W. apply index_lt; assumption.
Qed.

Lemma get_set_ne {A} (u : ndarray A) (i j a b : nat) (v : A) :
  j < ncols u → (a, b) ≠ (i, j) → get (set u i j v) a b = get u a b.
Proof.
  intros Hj N. unfold get, set. simpl.
  destruct (decide (a < nrows u ∧ b < ncols u)) as [[Ha Hb]|]; [|reflexivity].
  rewrite list_lookup_insert_ne; [reflexivity|].
  intros E. apply index_inj in E as [-> ->]; [|assumption..]. apply N. reflexivity.
Qed.

(** ** The SOR stepper on values *)

Lemma shape_sor_cell (mask : ndarray bool) (omega : float) (u : ndarray float) p :
  shape (sor_cell mask omega u p) = shape u.
Proof. destruct p as [i j]. unfold sor_cell. destruct (get mask i j) as [[]|]; reflexivity. Qed.

Lemma wf_sor_cell (mask : ndarray bool) (omega : float) (u : ndarray float) p :
  wf u → wf (sor_cell mask omega u p).
Proof.
  intros W. destruct p as [i j]. unfold sor_cell.
  destruct (get mask i j) as [[]|]; auto using wf_set.
Qed.

Lemma shape_sor_fold (mask : ndarray bool) (omega : float) cells (u : ndarray float) :
  shape (fold_left (sor_cell mask omega) cells u) = shape u.
Proof.
  revert u. induction cells as [|p cells IH]; intros u; simpl; [reflexivity|].
  rewrite IH. apply shape_sor_cell.
Qed.

Lemma wf_sor_fold (mask : ndarray bool) (omega : float) cells (u : ndarray float) :
  wf u → wf (fold_left (sor_cell mask omega) cells u).
Proof.
  revert u. induction cells as [|p cells IH]; intros u W; simpl; [exact W|].
  apply IH, wf_sor_cell, W.
Qed.

Lemma shape_sor_sweep (mask : ndarray bool) (omega : float) (u : ndarray float) :
  shape (sor_sweep mask omega u) = shape u.
Proof. apply shape_sor_fold. Qed.

Lemma wf_sor_sweep (mask : ndarray bool) (omega : float) (u : ndarray float) :
  wf u → wf (sor_sweep mask omega u).
Proof. apply wf_sor_fold. Qed.

Lemma shape_eq {A B} (u : ndarray A) (v : ndarray B) :
  shape u = shape v → nrows u = nrows v ∧ ncols u = ncols v.
Proof. unfold shape. intros [= -> ->]. auto. Qed.

(** The visited cells are exactly the interior ones. *)
Lemma elem_of_sor_cells (r c i j : nat) :
  (i, j) ∈ sor_cells r c ↔ 1 ≤ i ∧ i + 1 < r ∧ 1 ≤ j ∧ j + 1 < c.
Proof.
  unfold sor_cells, range. rewrite list_elem_of_In, in_flat_map. split.
  - intros (x & Hx & Hp). apply in_map_iff in Hp as (y & [= -> ->] & Hy).
    apply in_seq in Hx, Hy. lia.
  - intros (H1 & H2 & H3 & H4). exists i. split.
    + apply in_seq. lia.
    + apply in_map_iff. exists j. split; [reflexivity|]. apply in_seq. lia.
Qed.

(** ** Running the SOR stepper *)

Lemma getitem_run (h : heap) (u : loc) (g : ndarray float) (i j : nat) :
  h !! u = Some g → wf g → i < nrows g → j < ncols g →
  getitem u i j h = (h, Ret (cell g i j)).
Proof.
  intros Hu W Hi Hj. unfold getitem.
  step_with (load_run _ _ _ Hu).
  unfold lift. rewrite get_cell by assumption. reflexivity.
Qed.

Lemma setitem_run (h : heap) (u : loc) (g : ndarray float) (i j : nat) (v : float) :
  h !! u = Some g → setitem u i j v h = (<[u := set g i j v]> h, Ret tt).
Proof.
  intros Hu. unfold setitem.
  step_with (load_run _ _ _ Hu). reflexivity.
Qed.

Lemma sor_body_run (h : heap) (u : loc) (g : ndarray float)
    (mask : ndarray bool) (omega : float) (i j : nat) :
  h !! u = Some g → wf g → wf mask → shape mask = shape g →
  1 ≤ i ∧ i + 1 < nrows g ∧ 1 ≤ j ∧ j + 1 < ncols g →
  sor_body u mask omega i j h = (<[u := sor_cell mask omega g (i, j)]> h, Ret tt).
Proof.
  intros Hu W Wm Hs (Hi1 & Hi2 & Hj1 & Hj2).
  apply shape_eq in Hs as [Hr Hc].
  destruct (get_in_range mask i j Wm) as [b Hb]; [lia..|].
  unfold sor_body, sor_cell. rewrite Hb. rewrite bind_lift.
  destruct b.
  - step_with (getitem_run h u g (i + 1) j Hu W ltac:(lia) ltac:(lia)).
    step_with (getitem_run h u g (i - 1) j Hu W ltac:(lia) ltac:(lia)).
    step_with (getitem_run h u g i (j + 1) Hu W ltac:(lia) ltac:(lia)).
    step_with (getitem_run h u g i (j - 1) Hu W ltac:(lia) ltac:(lia)).
    step_with (getitem_run h u g i j Hu W ltac:(lia) ltac:(lia)).
    apply setitem_run. exact Hu.
  - rewrite insert_same by exact Hu. reflexivity.
Qed.

Lemma sor_cells_loop_run (cells : list (nat * nat)) (h : heap) (u : loc)
    (g : ndarray float) (mask : ndarray bool) (omega : float) :
  h !! u = Some g → wf g → wf mask → shape mask = shape g →
  Forall (λ p, 1 ≤ p.1 ∧ p.1 + 1 < nrows g ∧ 1 ≤ p.2 ∧ p.2 + 1 < ncols g) cells →
  for_ cells (λ p, sor_body u mask omega p.1 p.2) h
  = (<[u := fold_left (sor_cell mask omega) cells g]> h, Ret tt).
Proof.
  intros Hu W Wm Hs F. revert h g Hu W Hs F.
  induction cells as [|[i j] cells IH]; intros h g Hu W Hs F; simpl.
  - rewrite insert_same by exact Hu. reflexivity.
  - apply Forall_cons in F as [Hp F]. simpl in Hp.
    step_with (sor_body_run h u g mask omega i j Hu W Wm Hs Hp).
    assert (Hl : u < length h) by (apply lookup_lt_is_Some; eauto).
    rewrite IH with (g := sor_cell mask omega g (i, j)).
    + rewrite list_insert_insert_eq. reflexivity.
    + apply list_lookup_insert_eq. exact Hl.
    + apply wf_sor_cell, W.
    + rewrite shape_sor_cell. exact Hs.
    + pose proof (shape_sor_cell mask omega g (i, j)) as E.
      apply shape_eq in E as [-> ->]. exact F.
Qed.

(** One run of the SOR stepper overwrites the array behind its argument
    with the swept array, returns the same reference and touches no other
    array. *)
Lemma step_sor_2D_run (h : heap) (u : loc) (g : ndarray float)
    (mask : ndarray bool) (omega : float) :
  h !! u = Some g → wf g → wf mask → shape mask = shape g →
  step_sor_2D u mask omega h = (<[u := sor_sweep mask omega g]> h, Ret u).
Proof.
  intros Hu W Wm Hs. unfold step_sor_2D.
  step_with (load_run _ _ _ Hu). unfold shape.
  rewrite (bind_ret _ (λ _, mret u) h (<[u := sor_sweep mask omega g]> h) tt);
    [reflexivity|].
  rewrite for__nested. apply sor_cells_loop_run; try assumption.
  apply Forall_forall. intros [i j] Hin. apply elem_of_sor_cells in Hin. exact Hin.
Qed.

(** ** Running the solvers *)

Lemma bool_index_same_shape (g : ndarray float) (mask : ndarray bool) :
  shape mask = shape g → bool_index g mask = Ret (select (data mask) (data g)).
Proof. intros Hs. unfold bool_index. rewrite decide_True by exact Hs. reflexivity. Qed.

Lemma mask_fits_same_shape {A} (mask : ndarray bool) (u : ndarray A) :
  shape mask = shape u → mask_fits mask u.
Proof. intros Hs. apply shape_eq in Hs as [Hr Hc]. split; right; assumption. Qed.

(** A mask with a non-empty axis of another length than the array's. *)
Lemma bool_index_clash (g : ndarray float) (mask : ndarray bool) :
  ¬ mask_fits mask g → bool_index g mask = Raise IndexError.
Proof.
  intros N. unfold bool_index. rewrite decide_False.
  - rewrite decide_False by exact N. reflexivity.
  - intros Hs. apply N, mask_fits_same_shape, Hs.
Qed.

(** A mask of another shape whose differing axes are empty. *)
Lemma bool_index_empty_axis (g : ndarray float) (mask : ndarray bool) :
  shape mask ≠ shape g → mask_fits mask g → bool_index g mask = Ret [].
Proof.
  intros Hs F. unfold bool_index. rewrite decide_False by exact Hs.
  rewrite decide_True by exact F. reflexivity.
Qed.

(** The Jacobi loop allocates one array per iteration, modifies none, and
    returns what the loop on values returns. *)
Lemma jacobi_loop_run (its : list Z) (h : heap) (u : loc) (g : ndarray float)
    (mask : ndarray bool) (tol : float) (max_iter : Z) (omega : float) :
  h !! u = Some g → wf g → shape mask = shape g →
  ∃ ext r,
    jacobi_loop its u mask tol max_iter omega h
    = (h ++ ext, Ret (r, (relax (jacobi_step mask omega) mask tol max_iter its g).2))
    ∧ (h ++ ext) !! r = Some (relax (jacobi_step mask omega) mask tol max_iter its g).1
    ∧ u ≤ r.
Proof.
  revert h u g. induction its as [|it its IH]; intros h u g Hu W Hs.
  - exists [], u. simpl. rewrite app_nil_r. auto.
  - assert (Hl : u < length h) by (apply lookup_lt_is_Some; eauto).
    simpl.
    step_with (step_jacobi_2D_run h u g mask omega Hu W Hs).
    step_with (load_run _ _ _ (lookup_fresh h _)).
    rewrite bool_index_same_shape by exact Hs.
    rewrite bind_lift.
    step_with (load_run _ _ _ (lookup_old h [_] u g Hu)).
    rewrite bool_index_same_shape by exact Hs.
    rewrite bind_lift.
    fold (change (jacobi_step mask omega) mask g).
    destruct (change (jacobi_step mask omega) mask g <? tol)%float.
    + exists [jacobi_step mask omega g], (length h). simpl.
      split; [reflexivity|]. split; [apply lookup_fresh|lia].
    + destruct (IH (h ++ [jacobi_step mask omega g]) (length h)
                  (jacobi_step mask omega g)) as (ext & r & E & Hr & Hle).
      * apply lookup_fresh.
      * apply wf_jacobi_step, W.
      * exact Hs.
      * exists (jacobi_step mask omega g :: ext), r.
        rewrite <- app_assoc in E, Hr. simpl in E, Hr.
        split; [exact E|]. split; [exact Hr|lia].
Qed.

Lemma inpaint_jacobi_run (h : heap) (image : loc) (g : ndarray float)
    (mask : ndarray bool) (tol : float) (max_iter : Z) (omega : float) :
  valid_input h image g mask →
  ∃ ext r,
    inpaint_jacobi image mask tol max_iter omega h
    = (h ++ ext,
       Ret (r, (relax (jacobi_step mask omega) mask tol max_iter (range_Z max_iter) g).2))
    ∧ (h ++ ext) !! r
      = Some (relax (jacobi_step mask omega) mask tol max_iter (range_Z max_iter) g).1
    ∧ length h ≤ r.
Proof.
  intros (Hu & W & _ & Hs). unfold inpaint_jacobi.
  step_with (ndarray_copy_run _ _ _ Hu).
  destruct (jacobi_loop_run (range_Z max_iter) (h ++ [g]) (length h) g
              mask tol max_iter omega (lookup_fresh h g) W Hs)
    as (ext & r & E & Hr & Hle).
  exists (g :: ext), r. rewrite <- app_assoc in E, Hr. simpl in E, Hr. auto.
Qed.

(** The SOR loop allocates the saved copies, overwrites only the array
    behind [u], and returns [u] with what the loop on values returns. *)
Lemma sor_loop_run (its : list Z) (h : heap) (u : loc) (g : ndarray float)
    (mask : ndarray bool) (tol : float) (max_iter : Z) (omega : float) :
  h !! u = Some g → wf g → wf mask → shape mask = shape g →
  ∃ ext,
    sor_loop its u mask tol max_iter omega h
    = (<[u := (relax (sor_sweep mask omega) mask tol max_iter its g).1]> h ++ ext,
       Ret (u, (relax (sor_sweep mask omega) mask tol max_iter its g).2)).
Proof.
  intros Hu W Wm Hs. revert h g Hu W Hs.
  induction its as [|it its IH]; intros h g Hu W Hs.
  - exists []. simpl. rewrite app_nil_r, insert_same by exact Hu. reflexivity.
  - assert (Hl : u < length h) by (apply lookup_lt_is_Some; eauto).
    simpl.
    step_with (ndarray_copy_run _ _ _ Hu).
    rewrite (bind_ret _ _ _ _ _
               (step_sor_2D_run (h ++ [g]) u g mask omega
                  (lookup_old h [g] u g Hu) W Wm Hs)).
    rewrite insert_app_l by exact Hl.
    set (g' := sor_sweep mask omega g).
    assert (Hu' : (<[u := g']> h ++ [g]) !! u = Some g').
    { apply lookup_old. apply list_lookup_insert_eq. exact Hl. }
    assert (Hs' : shape mask = shape g').
    { unfold g'. rewrite shape_sor_sweep. exact Hs. }
    step_with (load_run _ _ _ Hu').
    rewrite bool_index_same_shape by exact Hs'.
    rewrite bind_lift.
    assert (Ho : (<[u := g']> h ++ [g]) !! length h = Some g).
    { rewrite <- (length_insert h u g'). apply lookup_fresh. }
    step_with (load_run _ _ _ Ho).
    rewrite bool_index_same_shape by exact Hs.
    rewrite bind_lift.
    unfold change. fold g'.
    destruct (norm _ <? tol)%float.
    + exists [g]. reflexivity.
    + destruct (IH (<[u := g']> h ++ [g]) g' Hu' (wf_sor_sweep _ _ _ W) Hs')
        as (ext & E).
      exists (g :: ext). rewrite E. f_equal.
      rewrite insert_app_l by (rewrite length_insert; exact Hl).
      rewrite list_insert_insert_eq, <- app_assoc. reflexivity.
Qed.

Lemma inpaint_sor_run (h : heap) (image : loc) (g : ndarray float)
    (mask : ndarray bool) (tol : float) (max_iter : Z) (omega : float) :
  valid_input h image g mask →
  ∃ ext,
    inpaint_sor image mask tol max_iter omega h
    = (h ++ (relax (sor_sweep mask omega) mask tol max_iter (range_Z max_iter) g).1 :: ext,
       Ret (length h,
            (relax (sor_sweep mask omega) mask tol max_iter (range_Z max_iter) g).2)).
Proof.
  intros (Hu & W & Wm & Hs). unfold inpaint_sor.
  step_with (ndarray_copy_run _ _ _ Hu).
  destruct (sor_loop_run (range_Z max_iter) (h ++ [g]) (length h) g
              mask tol max_iter omega (lookup_fresh h g) W Wm Hs) as (ext & E).
  exists ext. rewrite E. f_equal. rewrite insert_fresh, <- app_assoc. reflexivity.
Qed.

(** ** The solver loop on values *)

Section RelaxationFacts.
Variable step : ndarray float → ndarray float.
Variable mask : ndarray bool.
Variable tol : float.
Variable max_iter : Z.

Lemma iterate_succ_r (k : nat) (u : ndarray float) :
  iterate step (S k) u = iterate step k (step u).
Proof. apply Nat.iter_succ_r. Qed.

(** Over the indices [i, i + n) the loop either returns at the first
    index whose change is below the tolerance, or runs all [n] steps. *)
Lemma relax_seq (n i : nat) (u : ndarray float) :
  (∃ k, k < n
        ∧ (change step mask (iterate step k u) <? tol)%float = true
        ∧ (∀ j, j < k → (change step mask (iterate step j u) <? tol)%float = false)
        ∧ relax step mask tol max_iter (map Z.of_nat (seq i n)) u
          = (iterate step (S k) u, (Z.of_nat (i + k) + 1)%Z))
  ∨ ((∀ j, j < n → (change step mask (iterate step j u) <? tol)%float = false)
     ∧ relax step mask tol max_iter (map Z.of_nat (seq i n)) u
       = (iterate step n u, max_iter)).
Proof.
  revert i u. induction n as [|n IH]; intros i u.
  - right. split; [intros j Hj; lia|reflexivity].
  - simpl. destruct (change step mask u <? tol)%float eqn:E.
    + left. exists 0. split; [lia|]. split; [exact E|].
      split; [intros j Hj; lia|]. rewrite Nat.add_0_r. reflexivity.
    + destruct (IH (S i) (step u)) as [(k & Hk & Hc & Hb & Hr)|[Hb Hr]].
      * left. exists (S k). split; [lia|].
        rewrite !iterate_succ_r. split; [exact Hc|]. split.
        -- intros [|j] Hj; [exact E|]. rewrite iterate_succ_r. apply Hb. lia.
        -- rewrite Hr. do 2 f_equal. lia.
      * right. split.
        -- intros [|j] Hj; [exact E|]. rewrite iterate_succ_r. apply Hb. lia.
        -- rewrite Hr, <- iterate_succ_r. reflexivity.
Qed.

End RelaxationFacts.

Lemma range_Z_nonpos (n : Z) : (n ≤ 0)%Z → range_Z n = [].
Proof. intros H. unfold range_Z. replace (Z.to_nat n) with 0 by lia. reflexivity. Qed.

(** ** The Jacobi solver *)

(** C1: [inpaint_jacobi] performs at most [max_iter] steps; it returns at
    the first loop index [it] at which the Euclidean norm of the change of
    the masked cells is strictly below the tolerance, with the grid after
    that step and the count [it + 1]; when no index below [max_iter] meets
    the test it returns the grid after all steps with the count
    [max_iter]. *)
Theorem inpaint_jacobi_first_convergence (h : heap) (image : loc)
    (g : ndarray float) (mask : ndarray bool) (tol : float) (max_iter : Z)
    (omega : float) :
  valid_input h image g mask →
  let step := jacobi_step mask omega in
  let diff := λ k, change step mask (iterate step k g) in
  ∃ ext r n k,
    inpaint_jacobi image mask tol max_iter omega h = (h ++ ext, Ret (r, n))
    ∧ (h ++ ext) !! r = Some (iterate step k g)
    ∧ (Z.of_nat k ≤ Z.max 0 max_iter)%Z
    ∧ ((∃ it, k = S it
              ∧ (Z.of_nat it < max_iter)%Z
              ∧ (diff it <? tol)%float = true
              ∧ (∀ j, j < it → (diff j <? tol)%float = false)
              ∧ n = (Z.of_nat it + 1)%Z)
       ∨ (k = Z.to_nat max_iter
          ∧ (∀ j, (Z.of_nat j < max_iter)%Z → (diff j <? tol)%float = false)
          ∧ n = max_iter)).
Proof.
  intros V step diff.
  destruct (inpaint_jacobi_run h image g mask tol max_iter omega V)
    as (ext & r & E & Hr & _).
  fold step in E, Hr. unfold range_Z in E, Hr.
  destruct (relax_seq step mask tol max_iter (Z.to_nat max_iter) 0 g)
    as [(it & Hit & Hc & Hb & R)|[Hb R]]; rewrite R in E, Hr; simpl in E, Hr.
  - exists ext, r, (Z.of_nat it + 1)%Z, (S it).
    split; [exact E|]. split; [exact Hr|]. split; [lia|].
    left. exists it. repeat split; try assumption. lia.
  - exists ext, r, max_iter, (Z.to_nat max_iter).
    split; [exact E|]. split; [exact Hr|]. split; [lia|].
    right. repeat split. intros j Hj. apply Hb. lia.
Qed.

Lemma inpaint_jacobi_first_convergence_witness :
  let step := jacobi_step mask3 1 in
  let diff := λ k, change step mask3 (iterate step k image3) in
  ∃ ext r n k,
    inpaint_jacobi 0 mask3 1e-10 5 1 [image3] = ([image3] ++ ext, Ret (r, n))
    ∧ ([image3] ++ ext) !! r = Some (iterate step k image3)
    ∧ (Z.of_nat k ≤ Z.max 0 5)%Z
    ∧ ((∃ it, k = S it
              ∧ (Z.of_nat it < 5)%Z
              ∧ (diff it <? 1e-10)%float = true
              ∧ (∀ j, j < it → (diff j <? 1e-10)%float = false)
              ∧ n = (Z.of_nat it + 1)%Z)
       ∨ (k = Z.to_nat 5
          ∧ (∀ j, (Z.of_nat j < 5)%Z → (diff j <? 1e-10)%float = false)
          ∧ n = 5%Z)).
Proof.
  apply (inpaint_jacobi_first_convergence [image3] 0 image3 mask3 1e-10 5 1).
  repeat split; reflexivity.
Defined.

(** ** The order of the SOR sweep *)

Lemma seq_sorted (i n : nat) : StronglySorted lt (seq i n).
Proof.
  revert i. induction n as [|n IH]; intros i; simpl; constructor; [apply IH|].
  apply Forall_forall. intros x Hx. apply elem_of_seq in Hx. lia.
Qed.

Lemma product_sorted (xs ys : list nat) :
  StronglySorted lt xs → StronglySorted lt ys →
  StronglySorted row_major_lt (flat_map (λ i, map (pair i) ys) xs).
Proof.
  intros Hx Hy. induction Hx as [|x xs _ IH Hlt]; simpl; [constructor|].
  apply StronglySorted_app_2.
  - intros p q Hp Hq. apply list_elem_of_In, in_map_iff in Hp as (b & <- & _).
    apply list_elem_of_In, in_flat_map in Hq as (a & Ha & Hq).
    apply in_map_iff in Hq as (b' & <- & _). left. simpl.
    rewrite Forall_forall in Hlt. apply Hlt, list_elem_of_In, Ha.
  - apply (StronglySorted_fmap (pair x) lt row_major_lt); [|exact Hy].
    intros a b Hab. right. simpl. auto.
  - exact IH.
Qed.

Lemma sor_cells_sorted (r c : nat) : StronglySorted row_major_lt (sor_cells r c).
Proof. apply product_sorted; apply seq_sorted. Qed.

Lemma row_major_lt_irrefl (p : nat * nat) : ¬ row_major_lt p p.
Proof. unfold row_major_lt. lia. Qed.

(** Around a visited cell: everything before it in the sweep is smaller,
    everything after it is larger. *)
Lemma sor_cells_split (r c i j : nat) :
  (i, j) ∈ sor_cells r c →
  ∃ pre post,
    sor_cells r c = pre ++ (i, j) :: post
    ∧ (∀ p, p ∈ pre → row_major_lt p (i, j))
    ∧ (∀ p, p ∈ post → row_major_lt (i, j) p).
Proof.
  intros Hin. destruct (list_elem_of_split _ _ Hin) as (pre & post & E).
  exists pre, post. split; [exact E|].
  pose proof (sor_cells_sorted r c) as S. rewrite E in S.
  apply StronglySorted_app in S as (Hpre & _ & Hpost).
  apply StronglySorted_cons in Hpost as [Hpost _]. split.
  - intros p Hp. apply Hpre; [exact Hp|]. left.
  - intros p Hp. rewrite Forall_forall in Hpost. apply Hpost, Hp.
Qed.

(** ** What a sweep leaves alone *)

Lemma cell_set_eq (u : ndarray float) (i j : nat) (v : float) :
  wf u → i < nrows u → j < ncols u → cell (set u i j v) i j = v.
Proof.
  intros W Hi Hj. unfold cell, set. simpl.
  rewrite nth_lookup, list_lookup_insert_eq; [reflexivity|].
  rewrite W. apply index_lt; assumption.
Qed.

Lemma cell_set_ne (u : ndarray float) (i j a b : nat) (v : float) :
  j < ncols u → b < ncols u → (a, b) ≠ (i, j) →
  cell (set u i j v) a b = cell u a b.
Proof.
  intros Hj Hb N. unfold cell, set. simpl.
  rewrite !nth_lookup, list_lookup_insert_ne; [reflexivity|].
  intros E. apply index_inj in E as [-> ->]; [|assumption..]. apply N. reflexivity.
Qed.

Lemma cell_sor_cell_other (mask : ndarray bool) (omega : float)
    (u : ndarray float) (p : nat * nat) (a b : nat) :
  ncols mask = ncols u → b < ncols u → p ≠ (a, b) →
  cell (sor_cell mask omega u p) a b = cell u a b.
Proof.
  intros Hc Hb N. destruct p as [i j]. unfold sor_cell.
  destruct (get mask i j) as [[]|] eqn:E; try reflexivity.
  apply get_lookup in E as (_ & Hj & _).
  apply cell_set_ne; [lia|exact Hb|]. intros Eq. apply N. symmetry. exact Eq.
Qed.

Lemma ncols_sor_cell (mask : ndarray bool) (omega : float) (u : ndarray float) p :
  ncols (sor_cell mask omega u p) = ncols u.
Proof. pose proof (shape_sor_cell mask omega u p) as E. apply shape_eq in E. tauto. Qed.

Lemma cell_sor_fold_other (mask : ndarray bool) (omega : float)
    (cells : list (nat * nat)) (u : ndarray float) (a b : nat) :
  ncols mask = ncols u → b < ncols u → (a, b) ∉ cells →
  cell (fold_left (sor_cell mask omega) cells u) a b = cell u a b.
Proof.
  revert u. induction cells as [|p cells IH]; intros u Hc Hb N; simpl; [reflexivity|].
  apply not_elem_of_cons in N as [N1 N2].
  rewrite IH; [|rewrite ncols_sor_cell; assumption..|exact N2].
  apply cell_sor_cell_other; auto.
Qed.

Lemma get_sor_fold_other (mask : ndarray bool) (omega : float)
    (cells : list (nat * nat)) (u : ndarray float) (a b : nat) :
  wf u → ncols mask = ncols u → (a, b) ∉ cells →
  get (fold_left (sor_cell mask omega) cells u) a b = get u a b.
Proof.
  intros W Hc N.
  pose proof (shape_sor_fold mask omega cells u) as Hs. apply shape_eq in Hs as [Hr Hk].
  destruct (decide (a < nrows u ∧ b < ncols u)) as [[Ha Hb]|Out].
  - rewrite !get_cell; try assumption; try lia; [|apply wf_sor_fold, W].
    f_equal. apply cell_sor_fold_other; assumption.
  - unfold get. rewrite Hr, Hk, !decide_False by exact Out. reflexivity.
Qed.

Lemma get_sor_cell_unmasked (mask : ndarray bool) (omega : float)
    (u : ndarray float) (p : nat * nat) (a b : nat) :
  ncols mask = ncols u → get mask a b = Ret false →
  get (sor_cell mask omega u p) a b = get u a b.
Proof.
  intros Hc Hm. destruct p as [i j]. unfold sor_cell.
  destruct (get mask i j) as [[]|] eqn:E; try reflexivity.
  apply get_set_ne.
  - apply get_lookup in E. lia.
  - intros [= -> ->]. congruence.
Qed.

Lemma get_sor_fold_unmasked (mask : ndarray bool) (omega : float)
    (cells : list (nat * nat)) (u : ndarray float) (a b : nat) :
  ncols mask = ncols u → get mask a b = Ret false →
  get (fold_left (sor_cell mask omega) cells u) a b = get u a b.
Proof.
  revert u. induction cells as [|p cells IH]; intros u Hc Hm; cbn [fold_left];
    [reflexivity|].
  rewrite IH; [|rewrite ncols_sor_cell; exact Hc|exact Hm].
  apply get_sor_cell_unmasked; assumption.
Qed.

(** A masked interior cell receives the relaxation of its old value with
    the mean of its neighbours as the sweep finds them: the cells above
    and to the left already hold their new values, the cells below and to
    the right still hold the old ones. *)
Lemma sor_sweep_masked_cell (mask : ndarray bool) (omega : float)
    (g : ndarray float) (i j : nat) :
  wf g → shape mask = shape g → interior g i j → get mask i j = Ret true →
  cell (sor_sweep mask omega g) i j
  = ((1 - omega) * cell g i j
     + omega * ((cell g (i + 1) j + cell (sor_sweep mask omega g) (i - 1) j
                 + cell g i (j + 1) + cell (sor_sweep mask omega g) i (j - 1)) / 4))%float.
Proof.
  intros W Hs (Hi1 & Hi2 & Hj1 & Hj2) Hm.
  apply shape_eq in Hs as [Hr Hc].
  assert (Hin : (i, j) ∈ sor_cells (nrows g) (ncols g))
    by (apply elem_of_sor_cells; lia).
  destruct (sor_cells_split _ _ _ _ Hin) as (pre & post & E & Hpre & Hpost).
  unfold sor_sweep. rewrite E, fold_left_app. cbn [fold_left].
  set (g1 := fold_left (sor_cell mask omega) pre g).
  assert (W1 : wf g1) by (apply wf_sor_fold, W).
  assert (S1 : nrows g1 = nrows g ∧ ncols g1 = ncols g)
    by (apply shape_eq, shape_sor_fold).
  destruct S1 as [Hr1 Hc1].
  assert (Old : ∀ a b, b < ncols g → ¬ row_major_lt (a, b) (i, j) →
                       cell g1 a b = cell g a b).
  { intros a b Hb N. apply cell_sor_fold_other; [lia|exact Hb|].
    intros Hab. apply N, Hpre, Hab. }
  set (v := ((1 - omega) * cell g1 i j
             + omega * ((cell g1 (i + 1) j + cell g1 (i - 1) j
                         + cell g1 i (j + 1) + cell g1 i (j - 1)) / 4))%float).
  assert (E2 : sor_cell mask omega g1 (i, j) = set g1 i j v).
  { unfold sor_cell. rewrite Hm. reflexivity. }
  rewrite E2.
  assert (New : ∀ a b, b < ncols g → ¬ row_major_lt (i, j) (a, b) → (a, b) ≠ (i, j) →
                       cell (fold_left (sor_cell mask omega) post (set g1 i j v)) a b
                       = cell g1 a b).
  { intros a b Hb N Ne. rewrite cell_sor_fold_other.
    - apply cell_set_ne; [lia|lia|exact Ne].
    - simpl. lia.
    - simpl. lia.
    - intros Hab. apply N, Hpost, Hab. }
  rewrite cell_sor_fold_other;
    [|simpl; lia|simpl; lia|intros Hab; apply (row_major_lt_irrefl (i, j)), Hpost, Hab].
  rewrite cell_set_eq by (try assumption; lia).
  rewrite (New (i - 1) j), (New i (j - 1));
    try lia; try (unfold row_major_lt; simpl; lia); try (intros Eq; inversion Eq; lia).
  unfold v.
  rewrite (Old i j), (Old (i + 1) j), (Old i (j + 1));
    try lia; try (unfold row_major_lt; simpl; lia).
  reflexivity.
Qed.

(** ** The SOR stepper *)

(** C4: [step_sor_2D] runs the cell update over the interior cells, rows 1
    to [rows - 2] and columns 1 to [cols - 2], in row-major order, writing
    into the array it was given.  No border cell changes, whatever the
    mask; an interior cell changes only where the mask is true, and there
    it becomes [(1 - omega) * old + omega * mean], the mean taken over the
    four neighbours as the sweep finds them: the upper and the left one
    already updated, the lower and the right one not yet. *)
Theorem step_sor_2D_sweep (h : heap) (u : loc) (g : ndarray float)
    (mask : ndarray bool) (omega : float) :
  h !! u = Some g → wf g → wf mask → shape mask = shape g →
  ∃ G,
    step_sor_2D u mask omega h = (<[u := G]> h, Ret u)
    ∧ G = fold_left (sor_cell mask omega) (sor_cells (nrows g) (ncols g)) g
    ∧ StronglySorted row_major_lt (sor_cells (nrows g) (ncols g))
    ∧ (∀ i j, (i, j) ∈ sor_cells (nrows g) (ncols g) ↔ interior g i j)
    ∧ shape G = shape g
    ∧ (∀ i j, border g i j → get G i j = get g i j)
    ∧ (∀ i j, interior g i j → get mask i j = Ret false → get G i j = get g i j)
    ∧ (∀ i j, interior g i j → get mask i j = Ret true →
         get G i j
         = Ret ((1 - omega) * cell g i j
                + omega * ((cell g (i + 1) j + cell G (i - 1) j
                            + cell g i (j + 1) + cell G i (j - 1)) / 4))%float).
Proof.
  intros Hu W Wm Hs. exists (sor_sweep mask omega g).
  pose proof Hs as Hs'. apply shape_eq in Hs' as [Hr Hc].
  split; [apply step_sor_2D_run; assumption|].
  split; [reflexivity|]. split; [apply sor_cells_sorted|].
  split; [intros i j; apply elem_of_sor_cells|].
  split; [apply shape_sor_sweep|]. split; [|split].
  - intros i j B. apply get_sor_fold_other; [exact W|exact Hc|].
    rewrite elem_of_sor_cells. unfold border in B. lia.
  - intros i j _ Hm. apply get_sor_fold_unmasked; assumption.
  - intros i j I Hm. destruct I as (Hi1 & Hi2 & Hj1 & Hj2).
    rewrite get_cell; [|apply wf_sor_sweep, W|..].
    + f_equal. apply sor_sweep_masked_cell; try assumption. unfold interior. lia.
    + pose proof (shape_sor_sweep mask omega g) as S. apply shape_eq in S. lia.
    + pose proof (shape_sor_sweep mask omega g) as S. apply shape_eq in S. lia.
Qed.

Lemma step_sor_2D_sweep_witness :
  ∃ G,
    step_sor_2D 0 mask34 1.5 [image34] = (<[0 := G]> [image34], Ret 0)
    ∧ G = fold_left (sor_cell mask34 1.5) (sor_cells (nrows image34) (ncols image34)) image34
    ∧ StronglySorted row_major_lt (sor_cells (nrows image34) (ncols image34))
    ∧ (∀ i j, (i, j) ∈ sor_cells (nrows image34) (ncols image34) ↔ interior image34 i j)
    ∧ shape G = shape image34
    ∧ (∀ i j, border image34 i j → get G i j = get image34 i j)
    ∧ (∀ i j, interior image34 i j → get mask34 i j = Ret false →
         get G i j = get image34 i j)
    ∧ (∀ i j, interior image34 i j → get mask34 i j = Ret true →
         get G i j
         = Ret ((1 - 1.5) * cell image34 i j
                + 1.5 * ((cell image34 (i + 1) j + cell G (i - 1) j
                          + cell image34 i (j + 1) + cell G i (j - 1)) / 4))%float).
Proof.
  apply (step_sor_2D_sweep [image34] 0 image34 mask34 1.5); reflexivity.
Defined.

(** ** What the solvers leave alone *)

Lemma get_jacobi_step_unmasked (mask : ndarray bool) (omega : float)
    (u : ndarray float) (i j : nat) :
  ncols mask = ncols u → get mask i j = Ret false →
  get (jacobi_step mask omega u) i j = get u i j.
Proof.
  intros Hc Hm. apply get_lookup in Hm as (_ & _ & Hm). rewrite Hc in Hm.
  unfold get, jacobi_step. simpl.
  rewrite scatter_lookup_false by exact Hm. reflexivity.
Qed.

(** A property of arrays kept by the stepper is kept by the loop. *)
Lemma relax_preserves (P : ndarray float → Prop)
    (step : ndarray float → ndarray float) (mask : ndarray bool)
    (tol : float) (max_iter : Z) (its : list Z) (u : ndarray float) :
  (∀ x, P x → P (step x)) → P u → P (relax step mask tol max_iter its u).1.
Proof.
  intros Hstep. revert u. induction its as [|it its IH]; intros u Hu; simpl.
  - exact Hu.
  - destruct (change step mask u <? tol)%float; simpl; auto.
Qed.

(** C3: the grid returned by [inpaint_jacobi] and by [inpaint_sor] has the
    shape of the input image and agrees with it at every cell where the
    mask is false; it is a new array, and the caller's image (like every
    other array of the caller's store) is not modified. *)
Theorem solvers_keep_shape_unmasked_and_input (h : heap) (image : loc)
    (g : ndarray float) (mask : ndarray bool) (tol : float) (max_iter : Z)
    (omega : float) :
  valid_input h image g mask →
  fresh_result_keeping_unmasked h image g mask
    (inpaint_jacobi image mask tol max_iter omega h)
  ∧ fresh_result_keeping_unmasked h image g mask
      (inpaint_sor image mask tol max_iter omega h).
Proof.
  intros V. pose proof V as (Hu & W & Wm & Hs).
  pose proof Hs as Hs'. apply shape_eq in Hs' as [Hr Hc].
  assert (Hl : image < length h) by (apply lookup_lt_is_Some; eauto).
  set (P := λ G : ndarray float,
         shape G = shape g
         ∧ ∀ i j, get mask i j = Ret false → get G i j = get g i j).
  assert (P0 : P g) by (split; auto).
  split.
  - destruct (inpaint_jacobi_run h image g mask tol max_iter omega V)
      as (ext & r & E & Hres & Hle).
    assert (PG : P (relax (jacobi_step mask omega) mask tol max_iter
                      (range_Z max_iter) g).1).
    { apply relax_preserves; [|exact P0]. intros x [Sx Ax]. split.
      - rewrite shape_jacobi_step. exact Sx.
      - intros i j Hm. rewrite get_jacobi_step_unmasked; auto.
        apply shape_eq in Sx. lia. }
    destruct PG as [SG AG].
    eexists ext, r, _, _. split; [exact E|]. split; [exact Hres|].
    split; [lia|]. split; [apply lookup_old, Hu|]. split; assumption.
  - destruct (inpaint_sor_run h image g mask tol max_iter omega V) as (ext & E).
    assert (PG : P (relax (sor_sweep mask omega) mask tol max_iter
                      (range_Z max_iter) g).1).
    { apply relax_preserves; [|exact P0]. intros x [Sx Ax]. split.
      - rewrite shape_sor_sweep. exact Sx.
      - intros i j Hm. unfold sor_sweep. rewrite get_sor_fold_unmasked; auto.
        apply shape_eq in Sx. lia. }
    destruct PG as [SG AG].
    eexists (_ :: ext), (length h), _, _. split; [exact E|].
    split; [apply lookup_fresh_mid|].
    split; [lia|]. split; [apply lookup_old, Hu|]. split; assumption.
Qed.

Lemma solvers_keep_shape_unmasked_and_input_witness :
  fresh_result_keeping_unmasked [image34] 0 image34 mask34
    (inpaint_jacobi 0 mask34 1e-10 5 1 [image34])
  ∧ fresh_result_keeping_unmasked [image34] 0 image34 mask34
      (inpaint_sor 0 mask34 1e-10 5 1 [image34]).
Proof.
  apply (solvers_keep_shape_unmasked_and_input [image34] 0 image34 mask34 1e-10 5 1).
  repeat split; reflexivity.
Defined.

(** ** The Jacobi stepper on the hot corner *)

(** C5: on the 10x10 grid of zeros with the corner (0,0) at 100, the mask
    true everywhere but at that corner and [omega = 1.0], one Jacobi step
    yields exactly 25.0 at each of the four wrap-around neighbours of the
    corner and 0.0 at every other masked cell. *)
Theorem step_jacobi_2D_hot_corner :
  ∃ G,
    step_jacobi_2D 0 corner_mask 1 [hot_corner] = ([hot_corner; G], Ret 1)
    ∧ Forall (λ p, get G p.1 p.2 = Ret 25%float) corner_neighbours
    ∧ (∀ i j, get corner_mask i j = Ret true → (i, j) ∉ corner_neighbours →
              get G i j = Ret 0%float).
Proof.
  eexists. split; [vm_compute; reflexivity|].
  split; [repeat constructor|].
  intros i j Hm Hn. pose proof Hm as Hr. apply get_lookup in Hr as (Hi & Hj & _).
  simpl in Hi, Hj. unfold corner_neighbours in Hn.
  do 10 (destruct i as [|i];
         [do 10 (destruct j as [|j];
                 [first [reflexivity | discriminate Hm | exfalso; apply Hn; solve [repeat constructor]]|]);
          lia|]).
  lia.
Qed.

(** ** Signs of binary64 results *)

Lemma not_negative_round_aux (mx ex : Z) (lx : location) :
  not_negative (binary_round_aux prec emax false mx ex lx).
Proof.
  unfold binary_round_aux.
  destruct (shr_fexp prec emax mx ex lx) as [mrs' e'].
  destruct (shr_fexp prec emax _ e' loc_Exact) as [mrs'' e''].
  destruct (shr_m mrs''); [exact I| |exact I].
  destruct (Z.leb e'' (Z.sub emax prec)); exact I.
Qed.

Lemma not_negative_round (mx : positive) (ex : Z) :
  not_negative (binary_round prec emax false mx ex).
Proof.
  unfold binary_round. destruct (shl_align mx ex _) as [mz ez].
  apply not_negative_round_aux.
Qed.

Lemma not_negative_square (x : spec_float) : not_negative (SF64mul x x).
Proof.
  destruct x as [[]|[]| |[] m e]; try exact I; apply not_negative_round_aux.
Qed.

Lemma not_negative_add (x y : spec_float) :
  not_negative x → not_negative y → not_negative (SF64add x y).
Proof.
  destruct x as [[]|[]| |[] mx ex], y as [[]|[]| |[] my ey];
    simpl; intros Hx Hy; try exact I; try contradiction.
  unfold SF64add, SFadd. simpl. apply not_negative_round.
Qed.

Lemma not_negative_sqrt (x : spec_float) :
  not_negative x → not_negative (SF64sqrt x).
Proof.
  destruct x as [[]|[]| |[] mx ex]; simpl; intros Hx; try exact I; try contradiction.
  unfold SF64sqrt, SFsqrt.
  destruct (SFsqrt_core_binary prec emax (Zpos mx) ex) as [[mz ez] lz].
  apply not_negative_round_aux.
Qed.

Lemma not_negative_not_below (x t : spec_float) :
  not_negative x → SFleb t (S754_zero false) = true → SFltb x t = false.
Proof.
  destruct x as [[]|[]| |[] mx ex], t as [[]|[]| |[] mt et];
    simpl; intros Hx Ht; try reflexivity; try contradiction; discriminate.
Qed.

(** The dot product of a vector with itself is not negative, and so is
    its norm; a tolerance at or below zero is never undercut. *)
Lemma dot_self_not_negative (v : list float) :
  not_negative (Prim2SF (dot v v)).
Proof.
  unfold dot. assert (H0 : not_negative (Prim2SF 0%float)) by exact I.
  revert H0. generalize 0%float. induction v as [|x v IH]; intros acc Hacc; simpl.
  - exact Hacc.
  - apply IH. rewrite add_spec, mul_spec.
    apply not_negative_add; [exact Hacc|apply not_negative_square].
Qed.

Lemma norm_not_below (v : list float) (tol : float) :
  (tol <=? 0)%float = true → (norm v <? tol)%float = false.
Proof.
  intros Ht. rewrite leb_spec in Ht. rewrite ltb_spec. unfold norm.
  rewrite sqrt_spec. apply not_negative_not_below; [|exact Ht].
  apply not_negative_sqrt, dot_self_not_negative.
Qed.

(** ** Tolerances and caps *)

Lemma relax_never (step : ndarray float → ndarray float) (mask : ndarray bool)
    (tol : float) (max_iter : Z) (its : list Z) (u : ndarray float) :
  (∀ x, (change step mask x <? tol)%float = false) →
  relax step mask tol max_iter its u = (iterate step (length its) u, max_iter).
Proof.
  intros Never. revert u. induction its as [|it its IH]; intros u; simpl.
  - reflexivity.
  - rewrite Never, IH, <- iterate_succ_r. reflexivity.
Qed.

Lemma length_range_Z (n : Z) : length (range_Z n) = Z.to_nat n.
Proof. unfold range_Z. rewrite length_map, length_seq. reflexivity. Qed.

Lemma range_Z_pos (n : Z) :
  (1 ≤ n)%Z → ∃ its, range_Z n = 0%Z :: its.
Proof.
  intros H. unfold range_Z. destruct (Z.to_nat n) as [|k] eqn:E; [lia|].
  simpl. eauto.
Qed.

(** With the cap at or below zero the loop body never runs: both solvers
    return a copy of the image, paired with [max_iter] itself. *)
Lemma inpaint_nonpositive_cap (h : heap) (image : loc) (g : ndarray float)
    (mask : ndarray bool) (tol : float) (max_iter : Z) (omega : float) :
  h !! image = Some g → (max_iter ≤ 0)%Z →
  inpaint_jacobi image mask tol max_iter omega h = (h ++ [g], Ret (length h, max_iter))
  ∧ inpaint_sor image mask tol max_iter omega h = (h ++ [g], Ret (length h, max_iter)).
Proof.
  intros Hu Hn. unfold inpaint_jacobi, inpaint_sor.
  rewrite !(bind_ret _ _ _ _ _ (ndarray_copy_run _ _ _ Hu)).
  rewrite range_Z_nonpos by exact Hn. split; reflexivity.
Qed.

(** C8, at a negative cap: no iteration runs and the image comes back
    unchanged, but the count returned is the cap itself, not 0. *)
Theorem inpaint_negative_cap_count :
  inpaint_jacobi 0 mask3 1e-10 (-1) 1 [image3] = ([image3; image3], Ret (1, (-1)%Z))
  ∧ inpaint_sor 0 mask3 1e-10 (-1) 1 [image3] = ([image3; image3], Ret (1, (-1)%Z)).
Proof. split; reflexivity. Qed.

(** C9: with a tolerance at or below zero and a cap of at least one,
    neither solver returns early: each performs all [max_iter] steps and
    returns normally with the count [max_iter]. *)
Theorem nonpositive_tolerance_runs_to_cap (h : heap) (image : loc)
    (g : ndarray float) (mask : ndarray bool) (tol : float) (max_iter : Z)
    (omega : float) :
  valid_input h image g mask → (1 ≤ max_iter)%Z → (tol <=? 0)%float = true →
  (∃ ext r,
     inpaint_jacobi image mask tol max_iter omega h = (h ++ ext, Ret (r, max_iter))
     ∧ (h ++ ext) !! r
       = Some (iterate (jacobi_step mask omega) (Z.to_nat max_iter) g))
  ∧ (∃ ext r,
       inpaint_sor image mask tol max_iter omega h = (h ++ ext, Ret (r, max_iter))
       ∧ (h ++ ext) !! r
         = Some (iterate (sor_sweep mask omega) (Z.to_nat max_iter) g)).
Proof.
  intros V _ Ht. split.
  - destruct (inpaint_jacobi_run h image g mask tol max_iter omega V)
      as (ext & r & E & Hr & _).
    rewrite relax_never, length_range_Z in E, Hr
      by (intros x; apply norm_not_below, Ht).
    exists ext, r. split; assumption.
  - destruct (inpaint_sor_run h image g mask tol max_iter omega V) as (ext & E).
    rewrite relax_never, length_range_Z in E
      by (intros x; apply norm_not_below, Ht).
    eexists (_ :: ext), (length h). split; [exact E|apply lookup_fresh_mid].
Qed.

Lemma nonpositive_tolerance_runs_to_cap_witness :
  (∃ ext r,
     inpaint_jacobi 0 mask34 0 3 1 [image34] = ([image34] ++ ext, Ret (r, 3%Z))
     ∧ ([image34] ++ ext) !! r
       = Some (iterate (jacobi_step mask34 1) (Z.to_nat 3) image34))
  ∧ (∃ ext r,
       inpaint_sor 0 mask34 0 3 1 [image34] = ([image34] ++ ext, Ret (r, 3%Z))
       ∧ ([image34] ++ ext) !! r
         = Some (iterate (sor_sweep mask34 1) (Z.to_nat 3) image34)).
Proof.
  apply (nonpositive_tolerance_runs_to_cap [image34] 0 image34 mask34 0 3 1).
  - repeat split; reflexivity.
  - lia.
  - reflexivity.
Defined.

(** ** An empty mask *)

Lemma jacobi_step_unmasked (mask : ndarray bool) (omega : float) (u : ndarray float) :
  Forall (λ b, b = false) (data mask) → jacobi_step mask omega u = u.
Proof.
  intros F. unfold jacobi_step. rewrite !select_all_false by exact F.
  simpl. rewrite scatter_nil_vals. destruct u; reflexivity.
Qed.

Lemma sor_sweep_unmasked (mask : ndarray bool) (omega : float) (u : ndarray float) :
  Forall (λ b, b = false) (data mask) → sor_sweep mask omega u = u.
Proof.
  intros F. unfold sor_sweep. generalize (sor_cells (nrows u) (ncols u)).
  intros cells. induction cells as [|[i j] cells IH]; cbn [fold_left]; [reflexivity|].
  replace (sor_cell mask omega u (i, j)) with u; [exact IH|].
  unfold sor_cell. destruct (get mask i j) as [[]|] eqn:E; try reflexivity.
  apply get_lookup in E as (_ & _ & E). apply list_elem_of_lookup_2 in E.
  rewrite Forall_forall in F. apply F in E. discriminate.
Qed.

Lemma change_unmasked (step : ndarray float → ndarray float)
    (mask : ndarray bool) (u : ndarray float) :
  Forall (λ b, b = false) (data mask) → change step mask u = 0%float.
Proof. intros F. unfold change. rewrite !select_all_false by exact F. reflexivity. Qed.

(** C10: when the mask is false at every cell, the cap at least one and
    the tolerance positive, both solvers return after the first iteration
    with the count 1 (and a grid equal to the image): the change over no
    cells has norm zero. *)
Theorem empty_mask_one_iteration (h : heap) (image : loc)
    (g : ndarray float) (mask : ndarray bool) (tol : float) (max_iter : Z)
    (omega : float) :
  valid_input h image g mask → Forall (λ b, b = false) (data mask) →
  (1 ≤ max_iter)%Z → (0 <? tol)%float = true →
  (∃ ext r,
     inpaint_jacobi image mask tol max_iter omega h = (h ++ ext, Ret (r, 1%Z))
     ∧ (h ++ ext) !! r = Some g)
  ∧ (∃ ext r,
       inpaint_sor image mask tol max_iter omega h = (h ++ ext, Ret (r, 1%Z))
       ∧ (h ++ ext) !! r = Some g).
Proof.
  intros V F Hn Ht. destruct (range_Z_pos max_iter Hn) as [its Hits]. split.
  - destruct (inpaint_jacobi_run h image g mask tol max_iter omega V)
      as (ext & r & E & Hr & _).
    rewrite Hits in E, Hr. simpl in E, Hr.
    rewrite change_unmasked, Ht in E, Hr by exact F. simpl in E, Hr.
    rewrite jacobi_step_unmasked in Hr by exact F.
    exists ext, r. split; assumption.
  - destruct (inpaint_sor_run h image g mask tol max_iter omega V) as (ext & E).
    rewrite Hits in E. simpl in E.
    rewrite change_unmasked, Ht in E by exact F. simpl in E.
    rewrite sor_sweep_unmasked in E by exact F.
    exists (g :: ext), (length h). split; [exact E|apply lookup_fresh_mid].
Qed.

Lemma empty_mask_one_iteration_witness :
  (∃ ext r,
     inpaint_jacobi 0 no_mask3 1e-10 5 1 [image3] = ([image3] ++ ext, Ret (r, 1%Z))
     ∧ ([image3] ++ ext) !! r = Some image3)
  ∧ (∃ ext r,
       inpaint_sor 0 no_mask3 1e-10 5 1 [image3] = ([image3] ++ ext, Ret (r, 1%Z))
       ∧ ([image3] ++ ext) !! r = Some image3).
Proof.
  apply (empty_mask_one_iteration [image3] 0 image3 no_mask3 1e-10 5 1).
  - repeat split; reflexivity.
  - repeat constructor.
  - lia.
  - reflexivity.
Defined.

(** ** The omega search *)

Lemma valid_input_extend (h ext : heap) (image : loc) (g : ndarray float)
    (mask : ndarray bool) :
  valid_input h image g mask → valid_input (h ++ ext) image g mask.
Proof. intros (Hu & W & Wm & Hs). repeat split; auto using lookup_old. Qed.

(** The search loop only allocates, and selects as [pick] does from the
    counts of the SOR solver. *)
Lemma omega_loop_run (omegas : list float) (h : heap) (image : loc)
    (g : ndarray float) (mask : ndarray bool) (nIter : Z) (abstol : float)
    (best_omega : option float) (fewest_iters : Z) :
  valid_input h image g mask →
  ∃ ext,
    omega_loop omegas image mask nIter abstol best_omega fewest_iters h
    = (h ++ ext,
       Ret (pick (sor_count g mask abstol nIter) omegas best_omega fewest_iters)).
Proof.
  revert h best_omega fewest_iters.
  induction omegas as [|omega rest IH]; intros h best fewest V.
  - exists []. simpl. rewrite app_nil_r. reflexivity.
  - destruct (inpaint_sor_run h image g mask abstol nIter omega V) as (ext & E).
    fold (sor_count g mask abstol nIter omega) in E.
    cbn [omega_loop pick]. step_with E. cbn [snd].
    set (h1 := h ++ _ :: ext) in *.
    assert (V1 : valid_input h1 image g mask) by apply valid_input_extend, V.
    destruct (sor_count g mask abstol nIter omega <? fewest)%Z.
    + destruct (IH h1 (Some omega) (sor_count g mask abstol nIter omega) V1)
        as (ext' & E').
      eexists. rewrite E'. unfold h1. rewrite <- app_assoc. reflexivity.
    + destruct (IH h1 best fewest V1) as (ext' & E').
      eexists. rewrite E'. unfold h1. rewrite <- app_assoc. reflexivity.
Qed.

(** The selection keeps the first candidate that attains the smallest
    count below the starting bound, and keeps the starting state when no
    count is below the bound. *)
Lemma pick_spec (count : float → Z) (omegas : list float)
    (best : option float) (fewest : Z) :
  let '(b, n) := pick count omegas best fewest in
  (∀ w, w ∈ omegas → (n ≤ count w)%Z)
  ∧ ((n = fewest ∧ b = best ∧ ∀ w, w ∈ omegas → (fewest ≤ count w)%Z)
     ∨ ((n < fewest)%Z
        ∧ ∃ k w, omegas !! k = Some w ∧ b = Some w ∧ n = count w
                 ∧ ∀ j w', j < k → omegas !! j = Some w' → (n < count w')%Z)).
Proof.
  revert best fewest. induction omegas as [|w rest IH]; intros best fewest; simpl.
  - split; [intros w Hw; inversion Hw|]. left. repeat split.
    intros w Hw. inversion Hw.
  - destruct (Z.ltb_spec (count w) fewest) as [Hlt|Hge].
    + specialize (IH (Some w) (count w)).
      destruct (pick count rest (Some w) (count w)) as [b n].
      destruct IH as [Hmin [(-> & -> & Hall)|(Hn & k & w2 & Hk & -> & -> & Hbefore)]].
      * split.
        -- intros w' Hw'. apply elem_of_cons in Hw' as [->|Hw']; [lia|auto].
        -- right. split; [exact Hlt|]. exists 0, w. repeat split.
           intros j w' Hj. lia.
      * split.
        -- intros w' Hw'. apply elem_of_cons in Hw' as [->|Hw']; [lia|auto].
        -- right. split; [lia|]. exists (S k), w2. repeat split; [exact Hk|].
           intros [|j] w' Hj Hw'; simpl in Hw'.
           ++ injection Hw' as <-. exact Hn.
           ++ apply (Hbefore j); [lia|exact Hw'].
    + specialize (IH best fewest).
      destruct (pick count rest best fewest) as [b n].
      destruct IH as [Hmin [(-> & -> & Hall)|(Hn & k & w2 & Hk & -> & -> & Hbefore)]].
      * split.
        -- intros w' Hw'. apply elem_of_cons in Hw' as [->|Hw']; [lia|auto].
        -- left. repeat split.
           intros w' Hw'. apply elem_of_cons in Hw' as [->|Hw']; [lia|auto].
      * split.
        -- intros w' Hw'. apply elem_of_cons in Hw' as [->|Hw']; [lia|auto].
        -- right. split; [exact Hn|]. exists (S k), w2. repeat split; [exact Hk|].
           intros [|j] w' Hj Hw'; simpl in Hw'.
           ++ injection Hw' as <-. lia.
           ++ apply (Hbefore j); [lia|exact Hw'].
Qed.

(** C2: over a candidate sequence, [find_optimal_omega_sor] returns the
    candidate whose SOR iteration count is the smallest, provided that
    count is strictly below [nIter]: the first of the sequence to attain
    it, so its count is strictly below the count of every earlier
    candidate; the count is returned with it.  When no candidate's count
    is strictly below [nIter], it returns [None] with [nIter]. *)
Theorem find_optimal_omega_sor_selects (h : heap) (image : loc)
    (g : ndarray float) (mask : ndarray bool) (omegas : list float)
    (nIter : Z) (abstol : float) :
  valid_input h image g mask →
  ∃ count : float → Z,
    (∀ w, ∃ h1 r, inpaint_sor image mask abstol nIter w h = (h1, Ret (r, count w)))
    ∧ ∃ h' best n,
        find_optimal_omega_sor image mask (Some omegas) nIter abstol h
        = (h', Ret (best, n))
        ∧ ((∀ w, w ∈ omegas → ¬ (count w < nIter)%Z) → best = None ∧ n = nIter)
        ∧ ((∃ w, w ∈ omegas ∧ (count w < nIter)%Z) →
           ∃ k w, omegas !! k = Some w ∧ best = Some w ∧ n = count w
                  ∧ (n < nIter)%Z
                  ∧ (∀ j w', j < k → omegas !! j = Some w' → (n < count w')%Z)
                  ∧ (∀ w', w' ∈ omegas → (n ≤ count w')%Z)).
Proof.
  intros V. exists (sor_count g mask abstol nIter). split.
  - intros w. destruct (inpaint_sor_run h image g mask abstol nIter w V) as (ext & E).
    eexists _, _. exact E.
  - destruct (omega_loop_run omegas h image g mask nIter abstol None nIter V)
      as (ext & E).
    pose proof (pick_spec (sor_count g mask abstol nIter) omegas None nIter) as S.
    unfold find_optimal_omega_sor.
    destruct (pick (sor_count g mask abstol nIter) omegas None nIter) as [b n].
    exists (h ++ ext), b, n. split; [exact E|].
    destruct S as [Hmin [(-> & -> & Hall)|(Hn & k & w & Hk & -> & -> & Hbefore)]].
    + split; [auto|]. intros (w & Hw & Hlt). specialize (Hall w Hw). lia.
    + split.
      * intros Hnone. exfalso. apply (Hnone w); [|exact Hn].
        apply list_elem_of_lookup_2 in Hk. exact Hk.
      * intros _. exists k, w. repeat split; auto.
Qed.

Lemma find_optimal_omega_sor_selects_witness :
  ∃ count : float → Z,
    (∀ w, ∃ h1 r, inpaint_sor 0 mask34 1e-10 100 w [image34] = (h1, Ret (r, count w)))
    ∧ ∃ h' best n,
        find_optimal_omega_sor 0 mask34 (Some [1; 1.5; 1.1]%float) 100 1e-10 [image34]
        = (h', Ret (best, n))
        ∧ ((∀ w, w ∈ [1; 1.5; 1.1]%float → ¬ (count w < 100)%Z)
           → best = None ∧ n = 100%Z)
        ∧ ((∃ w, w ∈ [1; 1.5; 1.1]%float ∧ (count w < 100)%Z) →
           ∃ k w, [1; 1.5; 1.1]%float !! k = Some w ∧ best = Some w ∧ n = count w
                  ∧ (n < 100)%Z
                  ∧ (∀ j w', j < k → [1; 1.5; 1.1]%float !! j = Some w'
                             → (n < count w')%Z)
                  ∧ (∀ w', w' ∈ [1; 1.5; 1.1]%float → (n ≤ count w')%Z)).
Proof.
  apply (find_optimal_omega_sor_selects [image34] 0 image34 mask34
           [1; 1.5; 1.1]%float 100 1e-10).
  repeat split; reflexivity.
Defined.

Lemma relax_count_le (step : ndarray float → ndarray float) (mask : ndarray bool)
    (tol : float) (max_iter : Z) (u : ndarray float) :
  ((relax step mask tol max_iter (range_Z max_iter) u).2 ≤ max_iter)%Z.
Proof.
  unfold range_Z.
  destruct (relax_seq step mask tol max_iter (Z.to_nat max_iter) 0 u)
    as [(k & Hk & _ & _ & ->)|[_ ->]]; simpl; lia.
Qed.

(** C6, as the code has it: over the singleton list [[w]] the search runs
    the SOR solver once, with count [n]; it returns [(w, n)] when [n] is
    strictly below [nIter], and [(None, nIter)] when the run used up the
    cap ([n = nIter]). *)
Theorem find_optimal_omega_sor_singleton (h : heap) (image : loc)
    (g : ndarray float) (mask : ndarray bool) (w : float)
    (nIter : Z) (abstol : float) :
  valid_input h image g mask →
  ∃ h1 r n h',
    inpaint_sor image mask abstol nIter w h = (h1, Ret (r, n))
    ∧ ((n < nIter)%Z →
       find_optimal_omega_sor image mask (Some [w]) nIter abstol h
       = (h', Ret (Some w, n)))
    ∧ (¬ (n < nIter)%Z →
       n = nIter
       ∧ find_optimal_omega_sor image mask (Some [w]) nIter abstol h
         = (h', Ret (None, nIter))).
Proof.
  intros V.
  destruct (inpaint_sor_run h image g mask abstol nIter w V) as (ext & E).
  destruct (omega_loop_run [w] h image g mask nIter abstol None nIter V)
    as (ext' & E').
  fold (sor_count g mask abstol nIter w) in E.
  pose proof (relax_count_le (sor_sweep mask w) mask abstol nIter g) as Hle.
  fold (sor_count g mask abstol nIter w) in Hle.
  eexists _, _, _, (h ++ ext'). split; [exact E|].
  unfold find_optimal_omega_sor. rewrite E'. cbn [pick].
  split; intros Hn.
  - apply Z.ltb_lt in Hn. rewrite Hn. reflexivity.
  - split; [lia|]. apply Z.ltb_nlt in Hn. rewrite Hn. reflexivity.
Qed.

Lemma find_optimal_omega_sor_singleton_witness :
  ∃ h1 r n h',
    inpaint_sor 0 mask34 1e-10 100 1 [image34] = (h1, Ret (r, n))
    ∧ ((n < 100)%Z →
       find_optimal_omega_sor 0 mask34 (Some [1%float]) 100 1e-10 [image34]
       = (h', Ret (Some 1%float, n)))
    ∧ (¬ (n < 100)%Z →
       n = 100%Z
       ∧ find_optimal_omega_sor 0 mask34 (Some [1%float]) 100 1e-10 [image34]
         = (h', Ret (None, 100%Z))).
Proof.
  apply (find_optimal_omega_sor_singleton [image34] 0 image34 mask34 1 100 1e-10).
  repeat split; reflexivity.
Defined.

(** C6 as stated fails: on the 3x3 image with a cap of one iteration, the
    single SOR run returns the count 1, and the search does not return
    the candidate with that count. *)
Lemma singleton_search_selects_nothing_at_cap :
  ∃ h1 r n,
    inpaint_sor 0 mask3 1e-10 1 1 [image3] = (h1, Ret (r, n))
    ∧ ∀ h', find_optimal_omega_sor 0 mask3 (Some [1%float]) 1 1e-10 [image3]
            ≠ (h', Ret (Some 1%float, n)).
Proof.
  eexists _, _, _. split; [vm_compute; reflexivity|].
  intros h' E. vm_compute in E. discriminate E.
Qed.

(** ** Image and mask of different shapes *)

Lemma get_raise {A} (u : ndarray A) (i j : nat) (e : exn) :
  get u i j = Raise e → e = IndexError.
Proof.
  unfold get. destruct (decide _); [destruct (data u !! _)|]; congruence.
Qed.

(** Whatever the mask, a cell update of the sweep touches only the array
    it works on, keeps its shape, and can fail only with IndexError. *)
Lemma sor_body_any (h : heap) (u : loc) (g : ndarray float)
    (mask : ndarray bool) (omega : float) (i j : nat) :
  h !! u = Some g → wf g →
  1 ≤ i ∧ i + 1 < nrows g ∧ 1 ≤ j ∧ j + 1 < ncols g →
  ∃ g' o,
    sor_body u mask omega i j h = (<[u := g']> h, o)
    ∧ wf g' ∧ shape g' = shape g
    ∧ (o = Ret tt ∨ o = Raise IndexError).
Proof.
  intros Hu W (Hi1 & Hi2 & Hj1 & Hj2). unfold sor_body. rewrite bind_lift.
  destruct (get mask i j) as [[]|e] eqn:E.
  - step_with (getitem_run h u g (i + 1) j Hu W ltac:(lia) ltac:(lia)).
    step_with (getitem_run h u g (i - 1) j Hu W ltac:(lia) ltac:(lia)).
    step_with (getitem_run h u g i (j + 1) Hu W ltac:(lia) ltac:(lia)).
    step_with (getitem_run h u g i (j - 1) Hu W ltac:(lia) ltac:(lia)).
    step_with (getitem_run h u g i j Hu W ltac:(lia) ltac:(lia)).
    rewrite (setitem_run h u g i j _ Hu).
    eexists _, _. split; [reflexivity|]. auto using wf_set.
  - exists g, (Ret tt). rewrite insert_same by exact Hu. auto.
  - apply get_raise in E as ->. exists g, (Raise IndexError).
    rewrite insert_same by exact Hu. auto.
Qed.

Lemma sor_cells_loop_any (cells : list (nat * nat)) (h : heap) (u : loc)
    (g : ndarray float) (mask : ndarray bool) (omega : float) :
  h !! u = Some g → wf g →
  Forall (λ p, 1 ≤ p.1 ∧ p.1 + 1 < nrows g ∧ 1 ≤ p.2 ∧ p.2 + 1 < ncols g) cells →
  ∃ g' o,
    for_ cells (λ p, sor_body u mask omega p.1 p.2) h = (<[u := g']> h, o)
    ∧ wf g' ∧ shape g' = shape g
    ∧ (o = Ret tt ∨ o = Raise IndexError).
Proof.
  revert h g. induction cells as [|[i j] cells IH]; intros h g Hu W F.
  - exists g, (Ret tt). simpl. rewrite insert_same by exact Hu. auto.
  - apply Forall_cons in F as [Hp F]. simpl in Hp.
    assert (Hl : u < length h) by (apply lookup_lt_is_Some; eauto).
    destruct (sor_body_any h u g mask omega i j Hu W Hp)
      as (g1 & o1 & E1 & W1 & S1 & [->| ->]); cbn [for_ fst snd].
    + step_with E1.
      pose proof S1 as S1'. apply shape_eq in S1' as [Hr Hc].
      destruct (IH (<[u := g1]> h) g1) as (g2 & o2 & E2 & W2 & S2 & Ho2).
      * apply list_lookup_insert_eq. exact Hl.
      * exact W1.
      * rewrite Hr, Hc. exact F.
      * exists g2, o2. rewrite E2, list_insert_insert_eq.
        split; [reflexivity|]. split; [exact W2|]. split; [congruence|exact Ho2].
    + rewrite (bind_raise _ _ _ _ _ E1). exists g1, (Raise IndexError). auto.
Qed.

Lemma step_sor_2D_any (h : heap) (u : loc) (g : ndarray float)
    (mask : ndarray bool) (omega : float) :
  h !! u = Some g → wf g →
  ∃ g' o,
    step_sor_2D u mask omega h = (<[u := g']> h, o)
    ∧ wf g' ∧ shape g' = shape g
    ∧ (o = Ret u ∨ o = Raise IndexError).
Proof.
  intros Hu W. unfold step_sor_2D.
  step_with (load_run _ _ _ Hu). unfold shape.
  destruct (sor_cells_loop_any (sor_cells (nrows g) (ncols g)) h u g mask omega Hu W)
    as (g' & o & E & W' & S' & [->| ->]).
  { apply Forall_forall. intros [i j] Hin. apply elem_of_sor_cells in Hin. exact Hin. }
  - exists g', (Ret u). rewrite bind_run, for__nested. unfold sor_cells in E.
    rewrite E. auto.
  - exists g', (Raise IndexError). rewrite bind_run, for__nested.
    unfold sor_cells in E. rewrite E. auto.
Qed.

(** With a mask that numpy's boolean indexing refuses and a cap of at
    least one, the first iteration of either solver raises IndexError;
    the arrays of the caller's store stay as they were. *)
Lemma inpaint_jacobi_mask_clash (h : heap) (image : loc) (g : ndarray float)
    (mask : ndarray bool) (tol : float) (max_iter : Z) (omega : float) :
  h !! image = Some g → ¬ mask_fits mask g → (1 ≤ max_iter)%Z →
  inpaint_jacobi image mask tol max_iter omega h = (h ++ [g; g], Raise IndexError).
Proof.
  intros Hu N Hn. destruct (range_Z_pos max_iter Hn) as [its Hits].
  unfold inpaint_jacobi. step_with (ndarray_copy_run _ _ _ Hu). rewrite Hits.
  cbn [jacobi_loop]. apply bind_raise. unfold step_jacobi_2D.
  step_with (ndarray_copy_run _ _ _ (lookup_fresh h g)).
  step_with (load_run _ _ _ (lookup_old _ [g] _ _ (lookup_fresh h g))).
  rewrite (bool_index_clash g mask N), bind_lift.
  rewrite <- app_assoc. reflexivity.
Qed.

Lemma inpaint_sor_mask_clash (h : heap) (image : loc) (g : ndarray float)
    (mask : ndarray bool) (tol : float) (max_iter : Z) (omega : float) :
  h !! image = Some g → wf g → ¬ mask_fits mask g → (1 ≤ max_iter)%Z →
  ∃ ext, inpaint_sor image mask tol max_iter omega h = (h ++ ext, Raise IndexError).
Proof.
  intros Hu W N Hn. destruct (range_Z_pos max_iter Hn) as [its Hits].
  unfold inpaint_sor. step_with (ndarray_copy_run _ _ _ Hu). rewrite Hits.
  cbn [sor_loop]. step_with (ndarray_copy_run _ _ _ (lookup_fresh h g)).
  destruct (step_sor_2D_any ((h ++ [g]) ++ [g]) (length h) g mask omega)
    as (g' & o & E & W' & S' & [->| ->]).
  { apply lookup_old, lookup_fresh. }
  { exact W. }
  - exists [g'; g]. step_with E. rewrite <- app_assoc. simpl. rewrite insert_fresh.
    step_with (load_run _ _ _ (lookup_fresh_mid h [g] g')).
    rewrite bool_index_clash, bind_lift; [reflexivity|].
    apply shape_eq in S' as [Sr Sc]. unfold mask_fits. rewrite Sr, Sc. exact N.
  - exists [g'; g]. rewrite (bind_raise _ _ _ _ _ E).
    rewrite <- app_assoc. simpl. rewrite insert_fresh. reflexivity.
Qed.

(** C7, as the code has it: the solvers make no shape check of their own.
    A cap at or below zero makes both return normally, with a copy of the
    image and the cap, whatever the shape of the mask.  With a cap of at
    least one, a mask that has a non-empty axis of another length than the
    image's (the case numpy's boolean indexing checks) makes the first
    iteration fail with numpy's IndexError: no result is returned and the
    arrays of the caller's store stay as they were. *)
Theorem shape_mismatch_unchecked_by_solvers (h : heap) (image : loc)
    (g : ndarray float) (mask : ndarray bool) (tol : float) (max_iter : Z)
    (omega : float) :
  h !! image = Some g → wf g → shape mask ≠ shape g →
  ((1 ≤ max_iter)%Z → ¬ mask_fits mask g →
   (∃ ext, inpaint_jacobi image mask tol max_iter omega h
           = (h ++ ext, Raise IndexError))
   ∧ (∃ ext, inpaint_sor image mask tol max_iter omega h
             = (h ++ ext, Raise IndexError)))
  ∧ ((max_iter ≤ 0)%Z →
     inpaint_jacobi image mask tol max_iter omega h
     = (h ++ [g], Ret (length h, max_iter))
     ∧ inpaint_sor image mask tol max_iter omega h
       = (h ++ [g], Ret (length h, max_iter))).
Proof.
  intros Hu W Hs. split; [|apply inpaint_nonpositive_cap; exact Hu].
  intros Hn N. split.
  - exists [g; g]. apply inpaint_jacobi_mask_clash; assumption.
  - apply (inpaint_sor_mask_clash h image g); assumption.
Qed.

Lemma shape_mismatch_unchecked_by_solvers_witness :
  ((1 ≤ 3)%Z → ¬ mask_fits mask35 image5 →
   (∃ ext, inpaint_jacobi 0 mask35 1e-10 3 1 [image5]
           = ([image5] ++ ext, Raise IndexError))
   ∧ (∃ ext, inpaint_sor 0 mask35 1e-10 3 1 [image5]
             = ([image5] ++ ext, Raise IndexError)))
  ∧ ((3 ≤ 0)%Z →
     inpaint_jacobi 0 mask35 1e-10 3 1 [image5]
     = ([image5] ++ [image5], Ret (length [image5], 3%Z))
     ∧ inpaint_sor 0 mask35 1e-10 3 1 [image5]
       = ([image5] ++ [image5], Ret (length [image5], 3%Z))).
Proof.
  apply (shape_mismatch_unchecked_by_solvers [image5] 0 image5 mask35 1e-10 3 1).
  - reflexivity.
  - reflexivity.
  - discriminate.
Defined.

(** C7 as stated fails: with a cap of zero, the 5x5 image and the 3x5 mask
    are not rejected by either solver. *)
Lemma shape_mismatch_accepted_at_zero_cap :
  shape mask35 ≠ shape image5
  ∧ ¬ rejected (inpaint_jacobi 0 mask35 1e-10 0 1 [image5])
  ∧ ¬ rejected (inpaint_sor 0 mask35 1e-10 0 1 [image5]).
Proof.
  split; [discriminate|].
  split; intros (h' & e & E); vm_compute in E; discriminate E.
Qed.

(** ** Sample runs *)

Example arange_default_grid :
  length (arange 1 2 0.05) = 20
  ∧ arange 1 2 0.05 !! 0 = Some 1%float
  ∧ arange 1 2 0.05 !! 1 = Some 1.05%float.
Proof. repeat split; reflexivity. Qed.

Example inpaint_jacobi_image3 :
  (inpaint_jacobi 0 mask3 1e-10 5 1 [image3]).2 = Ret (3, 2%Z).
Proof. reflexivity. Qed.

Example inpaint_sor_image3 :
  (inpaint_sor 0 mask3 1e-10 5 1 [image3]).2 = Ret (1, 2%Z).
Proof. reflexivity. Qed.

(** In one sweep the second unknown cell already sees the new value of
    the first. *)
Example step_sor_2D_image34 :
  step_sor_2D 0 mask34 1.5 [image34]
  = ([NDArray 3 4 [1; 1; 1; 1; 1; 1.125; 1.546875; 1; 1; 1; 1; 2]%float], Ret 0).
Proof. reflexivity. Qed.

Example search_default_grid :
  (find_optimal_omega_sor 0 mask34 None 100 1e-10 [image34]).2
  = Ret (Some 1.05%float, 9%Z).
Proof. vm_compute. reflexivity. Qed.

Example search_first_minimum :
  (find_optimal_omega_sor 0 mask34 (Some [1.5; 1.05; 1; 1.05]%float) 100 1e-10
     [image34]).2
  = Ret (Some 1.05%float, 9%Z).
Proof. vm_compute. reflexivity. Qed.

(** * Further properties of the solvers *)

(** ** The SOR solver *)

(** X1: [inpaint_sor] performs at most [max_iter] sweeps on its own copy
    of the image; it returns at the first loop index [it] at which the
    norm of the change of the masked cells is strictly below the
    tolerance, with the count [it + 1], and with the count [max_iter]
    when no index meets the test. *)
Theorem inpaint_sor_first_convergence (h : heap) (image : loc)
    (g : ndarray float) (mask : ndarray bool) (tol : float) (max_iter : Z)
    (omega : float) :
  valid_input h image g mask →
  let step := sor_sweep mask omega in
  let diff := λ k, change step mask (iterate step k g) in
  ∃ ext n k,
    inpaint_sor image mask tol max_iter omega h = (h ++ ext, Ret (length h, n))
    ∧ (h ++ ext) !! length h = Some (iterate step k g)
    ∧ (Z.of_nat k ≤ Z.max 0 max_iter)%Z
    ∧ ((∃ it, k = S it
              ∧ (Z.of_nat it < max_iter)%Z
              ∧ (diff it <? tol)%float = true
              ∧ (∀ j, j < it → (diff j <? tol)%float = false)
              ∧ n = (Z.of_nat it + 1)%Z)
       ∨ (k = Z.to_nat max_iter
          ∧ (∀ j, (Z.of_nat j < max_iter)%Z → (diff j <? tol)%float = false)
          ∧ n = max_iter)).
Proof.
  intros V step diff.
  destruct (inpaint_sor_run h image g mask tol max_iter omega V) as (ext & E).
  fold step in E. unfold range_Z in E.
  destruct (relax_seq step mask tol max_iter (Z.to_nat max_iter) 0 g)
    as [(it & Hit & Hc & Hb & R)|[Hb R]]; rewrite R in E; simpl in E.
  - eexists _, (Z.of_nat it + 1)%Z, (S it).
    split; [exact E|]. split; [apply lookup_fresh_mid|]. split; [lia|].
    left. exists it. repeat split; try assumption. lia.
  - eexists _, max_iter, (Z.to_nat max_iter).
    split; [exact E|]. split; [apply lookup_fresh_mid|]. split; [lia|].
    right. repeat split. intros j Hj. apply Hb. lia.
Qed.

Lemma inpaint_sor_first_convergence_witness :
  let step := sor_sweep mask34 1.5 in
  let diff := λ k, change step mask34 (iterate step k image34) in
  ∃ ext n k,
    inpaint_sor 0 mask34 1e-10 50 1.5 [image34]
    = ([image34] ++ ext, Ret (length [image34], n))
    ∧ ([image34] ++ ext) !! length [image34] = Some (iterate step k image34)
    ∧ (Z.of_nat k ≤ Z.max 0 50)%Z
    ∧ ((∃ it, k = S it
              ∧ (Z.of_nat it < 50)%Z
              ∧ (diff it <? 1e-10)%float = true
              ∧ (∀ j, j < it → (diff j <? 1e-10)%float = false)
              ∧ n = (Z.of_nat it + 1)%Z)
       ∨ (k = Z.to_nat 50
          ∧ (∀ j, (Z.of_nat j < 50)%Z → (diff j <? 1e-10)%float = false)
          ∧ n = 50%Z)).
Proof.
  apply (inpaint_sor_first_convergence [image34] 0 image34 mask34 1e-10 50 1.5).
  repeat split; reflexivity.
Defined.

(** ** Iteration counts *)

Lemma relax_count_ge (step : ndarray float → ndarray float) (mask : ndarray bool)
    (tol : float) (max_iter : Z) (u : ndarray float) :
  (1 ≤ max_iter)%Z →
  (1 ≤ (relax step mask tol max_iter (range_Z max_iter) u).2)%Z.
Proof.
  intros Hn. unfold range_Z.
  destruct (relax_seq step mask tol max_iter (Z.to_nat max_iter) 0 u)
    as [(k & Hk & _ & _ & ->)|[_ ->]]; simpl; lia.
Qed.

(** X2: with a cap of at least one, the count returned by either solver
    lies between 1 and [max_iter]: a count of 0 is never returned, and the
    cap is never exceeded. *)
Theorem solver_count_between_one_and_cap (h : heap) (image : loc)
    (g : ndarray float) (mask : ndarray bool) (tol : float) (max_iter : Z)
    (omega : float) :
  valid_input h image g mask → (1 ≤ max_iter)%Z →
  (∃ h' r n, inpaint_jacobi image mask tol max_iter omega h = (h', Ret (r, n))
             ∧ (1 ≤ n ≤ max_iter)%Z)
  ∧ (∃ h' r n, inpaint_sor image mask tol max_iter omega h = (h', Ret (r, n))
               ∧ (1 ≤ n ≤ max_iter)%Z).
Proof.
  intros V Hn. split.
  - destruct (inpaint_jacobi_run h image g mask tol max_iter omega V)
      as (ext & r & E & _ & _).
    eexists _, _, _. split; [exact E|].
    split; [apply relax_count_ge, Hn|apply relax_count_le].
  - destruct (inpaint_sor_run h image g mask tol max_iter omega V) as (ext & E).
    eexists _, _, _. split; [exact E|].
    split; [apply relax_count_ge, Hn|apply relax_count_le].
Qed.

Lemma solver_count_between_one_and_cap_witness :
  (∃ h' r n, inpaint_jacobi 0 mask34 1e-10 7 1 [image34] = (h', Ret (r, n))
             ∧ (1 ≤ n ≤ 7)%Z)
  ∧ (∃ h' r n, inpaint_sor 0 mask34 1e-10 7 1 [image34] = (h', Ret (r, n))
               ∧ (1 ≤ n ≤ 7)%Z).
Proof.
  apply (solver_count_between_one_and_cap [image34] 0 image34 mask34 1e-10 7 1).
  - repeat split; reflexivity.
  - lia.
Defined.

(** ** A tolerance that is not a number *)

Lemma ltb_nan (x : float) : (x <? nan)%float = false.
Proof.
  rewrite ltb_spec. change (Prim2SF nan) with S754_nan.
  destruct (Prim2SF x) as [[]|[]| |[] m e]; reflexivity.
Qed.

(** X3: the test [diff < tol] is false for a NaN tolerance, so both
    solvers perform all [max_iter] steps and return normally with the
    count [max_iter]. *)
Theorem nan_tolerance_runs_to_cap (h : heap) (image : loc)
    (g : ndarray float) (mask : ndarray bool) (max_iter : Z) (omega : float) :
  valid_input h image g mask →
  (∃ ext r,
     inpaint_jacobi image mask nan max_iter omega h = (h ++ ext, Ret (r, max_iter))
     ∧ (h ++ ext) !! r
       = Some (iterate (jacobi_step mask omega) (Z.to_nat max_iter) g))
  ∧ (∃ ext r,
       inpaint_sor image mask nan max_iter omega h = (h ++ ext, Ret (r, max_iter))
       ∧ (h ++ ext) !! r
         = Some (iterate (sor_sweep mask omega) (Z.to_nat max_iter) g)).
Proof.
  intros V. split.
  - destruct (inpaint_jacobi_run h image g mask nan max_iter omega V)
      as (ext & r & E & Hr & _).
    rewrite relax_never, length_range_Z in E, Hr by (intros x; apply ltb_nan).
    exists ext, r. split; assumption.
  - destruct (inpaint_sor_run h image g mask nan max_iter omega V) as (ext & E).
    rewrite relax_never, length_range_Z in E by (intros x; apply ltb_nan).
    eexists (_ :: ext), (length h). split; [exact E|apply lookup_fresh_mid].
Qed.

Lemma nan_tolerance_runs_to_cap_witness :
  (∃ ext r,
     inpaint_jacobi 0 mask34 nan 4 1 [image34] = ([image34] ++ ext, Ret (r, 4%Z))
     ∧ ([image34] ++ ext) !! r
       = Some (iterate (jacobi_step mask34 1) (Z.to_nat 4) image34))
  ∧ (∃ ext r,
       inpaint_sor 0 mask34 nan 4 1 [image34] = ([image34] ++ ext, Ret (r, 4%Z))
       ∧ ([image34] ++ ext) !! r
         = Some (iterate (sor_sweep mask34 1) (Z.to_nat 4) image34)).
Proof.
  apply (nan_tolerance_runs_to_cap [image34] 0 image34 mask34 4 1).
  repeat split; reflexivity.
Defined.

(** ** The border under SOR *)

(** X4: the grid returned by [inpaint_sor] has the image's value at every
    border cell, also where the mask is true: the SOR solver never fills
    in an unknown cell of the outermost rows and columns. *)
Theorem inpaint_sor_keeps_border (h : heap) (image : loc)
    (g : ndarray float) (mask : ndarray bool) (tol : float) (max_iter : Z)
    (omega : float) :
  valid_input h image g mask →
  ∃ ext n G,
    inpaint_sor image mask tol max_iter omega h = (h ++ ext, Ret (length h, n))
    ∧ (h ++ ext) !! length h = Some G
    ∧ ∀ i j, border g i j → get G i j = get g i j.
Proof.
  intros V. pose proof V as (Hu & W & Wm & Hs).
  pose proof Hs as Hs'. apply shape_eq in Hs' as [Hr Hc].
  destruct (inpaint_sor_run h image g mask tol max_iter omega V) as (ext & E).
  set (P := λ G : ndarray float,
         shape G = shape g ∧ wf G
         ∧ ∀ i j, border g i j → get G i j = get g i j).
  assert (PG : P (relax (sor_sweep mask omega) mask tol max_iter
                    (range_Z max_iter) g).1).
  { apply relax_preserves; [|repeat split; auto].
    intros x (Sx & Wx & Bx). split; [|split].
    - rewrite shape_sor_sweep. exact Sx.
    - apply wf_sor_sweep, Wx.
    - intros i j B. rewrite <- (Bx i j B). apply shape_eq in Sx as [Sr Sc].
      unfold sor_sweep. apply get_sor_fold_other; [exact Wx|lia|].
      rewrite elem_of_sor_cells, Sr, Sc. unfold border in B. lia. }
  destruct PG as (_ & _ & BG).
  eexists _, _, _. split; [exact E|]. split; [apply lookup_fresh_mid|exact BG].
Qed.

Lemma inpaint_sor_keeps_border_witness :
  ∃ ext n G,
    inpaint_sor 0 corner_mask 1e-10 3 1 [hot_corner]
    = ([hot_corner] ++ ext, Ret (length [hot_corner], n))
    ∧ ([hot_corner] ++ ext) !! length [hot_corner] = Some G
    ∧ ∀ i j, border hot_corner i j → get G i j = get hot_corner i j.
Proof.
  apply (inpaint_sor_keeps_border [hot_corner] 0 hot_corner corner_mask 1e-10 3 1).
  repeat split; reflexivity.
Defined.

(** ** Cells of the Jacobi stepper *)

Lemma lookup_map {A B} (f : A → B) (l : list A) (k : nat) :
  map f l !! k = f <$> (l !! k).
Proof.
  revert k. induction l as [|x l IH]; intros [|k]; simpl; try reflexivity. apply IH.
Qed.

Lemma lookup_tabulate_rows (c : nat) (f : nat → nat → float) (r s i j : nat) :
  i < r → j < c →
  flat_map (λ i, map (f i) (seq 0 c)) (seq s r) !! (i * c + j) = Some (f (s + i) j).
Proof.
  revert s i. induction r as [|r IH]; intros s i Hi Hj; [lia|]. simpl.
  destruct i as [|i].
  - rewrite lookup_app_l by (rewrite length_map, length_seq; simpl; lia).
    simpl. rewrite lookup_map, lookup_seq_lt by lia. rewrite Nat.add_0_r. reflexivity.
  - rewrite lookup_app_r by (rewrite length_map, length_seq; simpl; lia).
    rewrite length_map, length_seq.
    replace (S i * c + j - c) with (i * c + j) by (simpl; lia).
    rewrite IH by lia. do 2 f_equal. lia.
Qed.

Lemma lookup_tabulate (r c : nat) (f : nat → nat → float) (i j : nat) :
  i < r → j < c → data (tabulate r c f) !! (i * c + j) = Some (f i j).
Proof. intros Hi Hj. unfold tabulate. simpl. apply lookup_tabulate_rows; assumption. Qed.

(** On an axis of length [n], a roll by one reads the cyclic predecessor
    and a roll by minus one the cyclic successor. *)
Lemma rolled_plus_one (n k : nat) : k < n → rolled n 1 k = (k + n - 1) mod n.
Proof.
  intros Hk. unfold rolled.
  replace ((Z.of_nat k - 1) mod Z.of_nat n)%Z
    with (Z.of_nat (k + n - 1) mod Z.of_nat n)%Z.
  - rewrite <- Nat2Z.inj_mod. apply Nat2Z.id.
  - replace (Z.of_nat (k + n - 1)) with (Z.of_nat k - 1 + 1 * Z.of_nat n)%Z by lia.
    apply Z.mod_add. lia.
Qed.

Lemma rolled_minus_one (n k : nat) : rolled n (-1) k = (k + 1) mod n.
Proof.
  unfold rolled.
  replace (Z.of_nat k - -1)%Z with (Z.of_nat (k + 1)) by lia.
  rewrite <- Nat2Z.inj_mod. apply Nat2Z.id.
Qed.

Lemma lookup_neighbor_average (u : ndarray float) (i j : nat) :
  i < nrows u → j < ncols u →
  data (neighbor_average u) !! (i * ncols u + j)
  = Some ((cell u ((i + nrows u - 1) mod nrows u) j
           + cell u ((i + 1) mod nrows u) j
           + cell u i ((j + ncols u - 1) mod ncols u)
           + cell u i ((j + 1) mod ncols u)) / 4)%float.
Proof.
  intros Hi Hj. unfold neighbor_average, arr_div, arr_add, roll. cbn [data].
  rewrite lookup_map, !lookup_zip_with, !lookup_tabulate by assumption.
  cbn [mbind option_bind]. simpl.
  rewrite !rolled_plus_one, !rolled_minus_one by assumption. reflexivity.
Qed.

Lemma select_zip_with {A B C} (f : A → B → C) (bs : list bool)
    (xs : list A) (ys : list B) :
  select bs (zip_with f xs ys) = zip_with f (select bs xs) (select bs ys).
Proof.
  revert xs ys. induction bs as [|b bs IH]; intros [|x xs] [|y ys]; simpl;
    try reflexivity.
  - destruct (select bs xs); destruct b; reflexivity.
  - destruct b; simpl; rewrite IH; reflexivity.
Qed.

Lemma select_map {A B} (f : A → B) (bs : list bool) (xs : list A) :
  select bs (map f xs) = map f (select bs xs).
Proof.
  revert xs. induction bs as [|b bs IH]; intros [|x xs]; simpl; try reflexivity.
  destruct b; simpl; rewrite IH; reflexivity.
Qed.

(** Scattering back what was selected from [zs] puts [zs] at the true
    positions. *)
Lemma lookup_scatter_select {A} (bs : list bool) (xs zs : list A) (k : nat) :
  length zs = length xs → bs !! k = Some true → k < length xs →
  scatter bs xs (select bs zs) !! k = zs !! k.
Proof.
  revert xs zs k. induction bs as [|b bs IH]; intros [|x xs] [|z zs] k L Hb Hk;
    simpl in *; try discriminate; try lia.
  injection L as L. destruct k as [|k]; simpl in *.
  - injection Hb as ->. reflexivity.
  - destruct b; simpl; apply IH; auto; lia.
Qed.

(** X5: one run of [step_jacobi_2D] allocates a new array and leaves its
    argument as it was.  The new array has the argument's shape; where the
    mask is false it has the argument's value, and where the mask is true
    it has [(1 - omega) * u + omega * mean], the mean of the four
    neighbours in the argument itself, with indices wrapping around at
    the edges. *)
Theorem step_jacobi_2D_cells (h : heap) (u : loc) (g : ndarray float)
    (mask : ndarray bool) (omega : float) :
  h !! u = Some g → wf g → wf mask → shape mask = shape g →
  ∃ G,
    step_jacobi_2D u mask omega h = (h ++ [G], Ret (length h))
    ∧ shape G = shape g
    ∧ (∀ i j, get mask i j = Ret false → get G i j = get g i j)
    ∧ (∀ i j, get mask i j = Ret true →
         get G i j
         = Ret ((1 - omega) * cell g i j
                + omega * ((cell g ((i + nrows g - 1) mod nrows g) j
                            + cell g ((i + 1) mod nrows g) j
                            + cell g i ((j + ncols g - 1) mod ncols g)
                            + cell g i ((j + 1) mod ncols g)) / 4))%float).
Proof.
  intros Hu W Wm Hs. exists (jacobi_step mask omega g).
  pose proof Hs as Hs'. apply shape_eq in Hs' as [Hr Hc].
  split; [apply step_jacobi_2D_run; assumption|]. split; [reflexivity|]. split.
  - intros i j Hm. apply get_jacobi_step_unmasked; assumption.
  - intros i j Hm. apply get_lookup in Hm as (Hi & Hj & Hm).
    rewrite Hr in Hi. rewrite Hc in Hj, Hm.
    assert (Hk : i * ncols g + j < length (data g))
      by (rewrite W; apply index_lt; assumption).
    apply get_lookup. cbn [nrows ncols data jacobi_step].
    split; [exact Hi|]. split; [exact Hj|].
    unfold vec_add, vec_scale. rewrite <- !select_map, <- select_zip_with.
    rewrite lookup_scatter_select; [|rewrite length_zip_with, !length_map,
      length_neighbor_average; unfold wf in W; lia|exact Hm|exact Hk].
    rewrite lookup_zip_with, !lookup_map, lookup_neighbor_average by assumption.
    pose proof (get_cell g i j W Hi Hj) as Ex.
    apply get_lookup in Ex as (_ & _ & Ex). rewrite Ex. reflexivity.
Qed.

Lemma step_jacobi_2D_cells_witness :
  ∃ G,
    step_jacobi_2D 0 mask34 1.5 [image34] = ([image34] ++ [G], Ret (length [image34]))
    ∧ shape G = shape image34
    ∧ (∀ i j, get mask34 i j = Ret false → get G i j = get image34 i j)
    ∧ (∀ i j, get mask34 i j = Ret true →
         get G i j
         = Ret ((1 - 1.5) * cell image34 i j
                + 1.5 * ((cell image34 ((i + nrows image34 - 1) mod nrows image34) j
                          + cell image34 ((i + 1) mod nrows image34) j
                          + cell image34 i ((j + ncols image34 - 1) mod ncols image34)
                          + cell image34 i ((j + 1) mod ncols image34)) / 4))%float).
Proof.
  apply (step_jacobi_2D_cells [image34] 0 image34 mask34 1.5); reflexivity.
Defined.

(** ** The mask as the SOR stepper reads it *)

Lemma get_out_of_range {A} (u : ndarray A) (i j : nat) :
  ¬ (i < nrows u ∧ j < ncols u) → get u i j = Raise IndexError.
Proof. intros N. unfold get. rewrite decide_False by exact N. reflexivity. Qed.

Lemma sor_body_run_covered (h : heap) (u : loc) (g : ndarray float)
    (mask : ndarray bool) (omega : float) (i j : nat) :
  h !! u = Some g → wf g → wf mask →
  i < nrows mask ∧ j < ncols mask →
  1 ≤ i ∧ i + 1 < nrows g ∧ 1 ≤ j ∧ j + 1 < ncols g →
  sor_body u mask omega i j h = (<[u := sor_cell mask omega g (i, j)]> h, Ret tt).
Proof.
  intros Hu W Wm [Hmi Hmj] (Hi1 & Hi2 & Hj1 & Hj2).
  destruct (get_in_range mask i j Wm Hmi Hmj) as [b Hb].
  unfold sor_body, sor_cell. rewrite Hb, bind_lift.
  destruct b.
  - step_with (getitem_run h u g (i + 1) j Hu W ltac:(lia) ltac:(lia)).
    step_with (getitem_run h u g (i - 1) j Hu W ltac:(lia) ltac:(lia)).
    step_with (getitem_run h u g i (j + 1) Hu W ltac:(lia) ltac:(lia)).
    step_with (getitem_run h u g i (j - 1) Hu W ltac:(lia) ltac:(lia)).
    step_with (getitem_run h u g i j Hu W ltac:(lia) ltac:(lia)).
    apply setitem_run. exact Hu.
  - rewrite insert_same by exact Hu. reflexivity.
Qed.

Lemma sor_body_run_uncovered (h : heap) (u : loc)
    (mask : ndarray bool) (omega : float) (i j : nat) :
  ¬ (i < nrows mask ∧ j < ncols mask) →
  sor_body u mask omega i j h = (h, Raise IndexError).
Proof.
  intros N. unfold sor_body. rewrite (get_out_of_range mask i j N), bind_lift.
  reflexivity.
Qed.

Lemma sor_cells_loop_covered (cells : list (nat * nat)) (h : heap) (u : loc)
    (g : ndarray float) (mask : ndarray bool) (omega : float) :
  h !! u = Some g → wf g → wf mask →
  Forall (λ p, 1 ≤ p.1 ∧ p.1 + 1 < nrows g ∧ 1 ≤ p.2 ∧ p.2 + 1 < ncols g) cells →
  Forall (λ p, p.1 < nrows mask ∧ p.2 < ncols mask) cells →
  for_ cells (λ p, sor_body u mask omega p.1 p.2) h
  = (<[u := fold_left (sor_cell mask omega) cells g]> h, Ret tt).
Proof.
  intros Hu W Wm F C. revert h g Hu W F.
  induction cells as [|[i j] cells IH]; intros h g Hu W F; cbn [for_ fold_left].
  - rewrite insert_same by exact Hu. reflexivity.
  - apply Forall_cons in F as [Hp F]. apply Forall_cons in C as [Hc C].
    step_with (sor_body_run_covered h u g mask omega i j Hu W Wm Hc Hp).
    assert (Hl : u < length h) by (apply lookup_lt_is_Some; eauto).
    pose proof (shape_sor_cell mask omega g (i, j)) as E.
    apply shape_eq in E as [Er Ec].
    rewrite (IH C) with (g := sor_cell mask omega g (i, j)).
    + rewrite list_insert_insert_eq. reflexivity.
    + apply list_lookup_insert_eq. exact Hl.
    + apply wf_sor_cell, W.
    + rewrite Er, Ec. exact F.
Qed.

Lemma sor_cells_loop_uncovered (cells : list (nat * nat)) (h : heap) (u : loc)
    (g : ndarray float) (mask : ndarray bool) (omega : float) :
  h !! u = Some g → wf g → wf mask →
  Forall (λ p, 1 ≤ p.1 ∧ p.1 + 1 < nrows g ∧ 1 ≤ p.2 ∧ p.2 + 1 < ncols g) cells →
  Exists (λ p, ¬ (p.1 < nrows mask ∧ p.2 < ncols mask)) cells →
  ∃ g', for_ cells (λ p, sor_body u mask omega p.1 p.2) h
        = (<[u := g']> h, Raise IndexError)
        ∧ shape g' = shape g.
Proof.
  intros Hu W Wm F X. revert h g Hu W F.
  induction cells as [|[i j] cells IH]; intros h g Hu W F; [inversion X|].
  apply Forall_cons in F as [Hp F]. cbn [for_].
  destruct (decide (i < nrows mask ∧ j < ncols mask)) as [Hc|Hn].
  - apply Exists_cons in X as [X|X]; [simpl in X; tauto|].
    step_with (sor_body_run_covered h u g mask omega i j Hu W Wm Hc Hp).
    assert (Hl : u < length h) by (apply lookup_lt_is_Some; eauto).
    pose proof (shape_sor_cell mask omega g (i, j)) as E.
    pose proof E as E'. apply shape_eq in E' as [Er Ec].
    destruct (IH X (<[u := sor_cell mask omega g (i, j)]> h)
                (sor_cell mask omega g (i, j))) as (g' & Eg & Sg).
    + apply list_lookup_insert_eq. exact Hl.
    + apply wf_sor_cell, W.
    + rewrite Er, Ec. exact F.
    + exists g'. rewrite Eg, list_insert_insert_eq. split; [reflexivity|congruence].
  - exists g. rewrite (bind_raise _ _ _ _ _ (sor_body_run_uncovered h u mask omega i j Hn)).
    rewrite insert_same by exact Hu. auto.
Qed.

(** X6: [step_sor_2D] reads the mask at the interior cells of the array
    only.  A mask that reaches all of them is accepted, whatever its
    shape, and the sweep is the one of the mask's values there; a mask
    that misses an interior cell makes the sweep stop with IndexError,
    the array keeping its shape. *)
Theorem step_sor_2D_reads_mask_at_interior (h : heap) (u : loc)
    (g : ndarray float) (mask : ndarray bool) (omega : float) :
  h !! u = Some g → wf g → wf mask →
  ((∀ i j, interior g i j → i < nrows mask ∧ j < ncols mask) →
   step_sor_2D u mask omega h = (<[u := sor_sweep mask omega g]> h, Ret u))
  ∧ ((∃ i j, interior g i j ∧ ¬ (i < nrows mask ∧ j < ncols mask)) →
     ∃ g', step_sor_2D u mask omega h = (<[u := g']> h, Raise IndexError)
           ∧ shape g' = shape g).
Proof.
  intros Hu W Wm.
  assert (F : Forall (λ p, 1 ≤ p.1 ∧ p.1 + 1 < nrows g ∧ 1 ≤ p.2 ∧ p.2 + 1 < ncols g)
                (sor_cells (nrows g) (ncols g))).
  { apply Forall_forall. intros [i j] Hin. apply elem_of_sor_cells in Hin. exact Hin. }
  split.
  - intros C. unfold step_sor_2D. step_with (load_run _ _ _ Hu). unfold shape.
    rewrite (bind_ret _ (λ _, mret u) h (<[u := sor_sweep mask omega g]> h) tt);
      [reflexivity|].
    rewrite for__nested. apply sor_cells_loop_covered; try assumption.
    apply Forall_forall. intros [i j] Hin. apply C, elem_of_sor_cells, Hin.
  - intros (i & j & I & N).
    destruct (sor_cells_loop_uncovered (sor_cells (nrows g) (ncols g)) h u g
                mask omega Hu W Wm F) as (g' & E & S).
    { apply Exists_exists. exists (i, j). split; [|exact N].
      apply elem_of_sor_cells. exact I. }
    exists g'. split; [|exact S]. unfold step_sor_2D.
    step_with (load_run _ _ _ Hu). unfold shape.
    apply bind_raise. rewrite for__nested. exact E.
Qed.

Lemma step_sor_2D_reads_mask_at_interior_witness :
  ((∀ i j, interior image34 i j → i < nrows mask23 ∧ j < ncols mask23) →
   step_sor_2D 0 mask23 1 [image34]
   = (<[0 := sor_sweep mask23 1 image34]> [image34], Ret 0))
  ∧ ((∃ i j, interior image34 i j ∧ ¬ (i < nrows mask23 ∧ j < ncols mask23)) →
     ∃ g', step_sor_2D 0 mask23 1 [image34] = (<[0 := g']> [image34], Raise IndexError)
           ∧ shape g' = shape image34).
Proof.
  apply (step_sor_2D_reads_mask_at_interior [image34] 0 image34 mask23 1);
    reflexivity.
Defined.

(** ** Arrays without interior *)

Lemma sor_cells_small (r c : nat) : r < 3 ∨ c < 3 → sor_cells r c = [].
Proof.
  intros H. destruct (sor_cells r c) as [|[i j] l] eqn:E; [reflexivity|].
  assert (Hin : (i, j) ∈ sor_cells r c) by (rewrite E; left).
  apply elem_of_sor_cells in Hin. lia.
Qed.

(** X7: on an array with fewer than three rows or fewer than three
    columns [step_sor_2D] does nothing: it changes no array and does not
    look at the mask, so that no mask makes it fail; and [inpaint_sor]
    returns a copy equal to the image. *)
Theorem sor_without_interior (h : heap) (image : loc) (g : ndarray float)
    (mask : ndarray bool) (tol : float) (max_iter : Z) (omega : float) :
  h !! image = Some g → nrows g < 3 ∨ ncols g < 3 →
  step_sor_2D image mask omega h = (h, Ret image)
  ∧ (wf g → wf mask → shape mask = shape g →
     ∃ ext n, inpaint_sor image mask tol max_iter omega h
              = (h ++ g :: ext, Ret (length h, n))).
Proof.
  intros Hu Small. split.
  - unfold step_sor_2D. step_with (load_run _ _ _ Hu). unfold shape.
    rewrite bind_run, for__nested. fold (sor_cells (nrows g) (ncols g)).
    rewrite sor_cells_small by exact Small. reflexivity.
  - intros W Wm Hs.
    destruct (inpaint_sor_run h image g mask tol max_iter omega) as (ext & E).
    { repeat split; assumption. }
    assert (Same : (relax (sor_sweep mask omega) mask tol max_iter
                      (range_Z max_iter) g).1 = g).
    { apply (relax_preserves (λ x, x = g)); [|reflexivity].
      intros x ->. unfold sor_sweep. rewrite sor_cells_small by exact Small.
      reflexivity. }
    rewrite Same in E. eexists _, _. exact E.
Qed.

Lemma sor_without_interior_witness :
  step_sor_2D 0 row4_mask 1 [row4] = ([row4], Ret 0)
  ∧ (wf row4 → wf row4_mask → shape row4_mask = shape row4 →
     ∃ ext n, inpaint_sor 0 row4_mask 1e-10 9 1 [row4]
              = ([row4] ++ row4 :: ext, Ret (length [row4], n))).
Proof.
  apply (sor_without_interior [row4] 0 row4 row4_mask 1e-10 9 1).
  - reflexivity.
  - left. simpl. lia.
Defined.

(** ** More on the omega search *)

(** X8: on a valid image and mask the search returns normally, whatever
    the candidates (the default grid included), and modifies no array of
    the caller's store.  The count it returns is at most [nIter], and it
    equals [nIter] exactly when no omega is selected: a caller can tell
    the sentinel from the count alone. *)
Theorem find_optimal_omega_sor_sentinel (h : heap) (image : loc)
    (g : ndarray float) (mask : ndarray bool)
    (omega_values : option (list float)) (nIter : Z) (abstol : float) :
  valid_input h image g mask →
  ∃ ext best n,
    find_optimal_omega_sor image mask omega_values nIter abstol h
    = (h ++ ext, Ret (best, n))
    ∧ (n ≤ nIter)%Z
    ∧ (best = None ↔ n = nIter).
Proof.
  intros V. unfold find_optimal_omega_sor.
  set (omegas := match omega_values with None => arange 1 2 0.05 | Some l => l end).
  destruct (omega_loop_run omegas h image g mask nIter abstol None nIter V)
    as (ext & E).
  pose proof (pick_spec (sor_count g mask abstol nIter) omegas None nIter) as S.
  destruct (pick (sor_count g mask abstol nIter) omegas None nIter) as [b n].
  exists ext, b, n. split; [exact E|].
  destruct S as [_ [(-> & -> & _)|(Hn & k & w & _ & -> & _ & _)]].
  - split; [lia|]. split; reflexivity.
  - split; [lia|]. split; [discriminate|lia].
Qed.

Lemma find_optimal_omega_sor_sentinel_witness :
  ∃ ext best n,
    find_optimal_omega_sor 0 mask34 None 100 1e-10 [image34]
    = ([image34] ++ ext, Ret (best, n))
    ∧ (n ≤ 100)%Z
    ∧ (best = None ↔ n = 100%Z).
Proof.
  apply (find_optimal_omega_sor_sentinel [image34] 0 image34 mask34 None 100 1e-10).
  repeat split; reflexivity.
Defined.

Lemma omega_loop_nonpositive_cap (omegas : list float) (h : heap) (image : loc)
    (g : ndarray float) (mask : ndarray bool) (nIter : Z) (abstol : float) :
  h !! image = Some g → (nIter ≤ 0)%Z →
  ∃ ext, omega_loop omegas image mask nIter abstol None nIter h
         = (h ++ ext, Ret (None, nIter)).
Proof.
  intros Hu Hn. revert h Hu. induction omegas as [|w rest IH]; intros h Hu.
  - exists []. simpl. rewrite app_nil_r. reflexivity.
  - destruct (inpaint_nonpositive_cap h image g mask abstol nIter w Hu Hn) as [_ E].
    cbn [omega_loop]. step_with E. cbn [snd]. rewrite Z.ltb_irrefl.
    destruct (IH (h ++ [g]) (lookup_old h [g] image g Hu)) as (ext & E').
    exists (g :: ext). rewrite E', <- app_assoc. reflexivity.
Qed.

(** X9: with a cap at or below zero the search selects nothing: for every
    candidate list (the default grid included) and every mask, of the
    image's shape or not, it returns [None] with [nIter]. *)
Theorem find_optimal_omega_sor_nonpositive_cap (h : heap) (image : loc)
    (g : ndarray float) (mask : ndarray bool)
    (omega_values : option (list float)) (nIter : Z) (abstol : float) :
  h !! image = Some g → (nIter ≤ 0)%Z →
  ∃ ext,
    find_optimal_omega_sor image mask omega_values nIter abstol h
    = (h ++ ext, Ret (None, nIter)).
Proof.
  intros Hu Hn. unfold find_optimal_omega_sor.
  apply omega_loop_nonpositive_cap with (g := g); assumption.
Qed.

Lemma find_optimal_omega_sor_nonpositive_cap_witness :
  ∃ ext,
    find_optimal_omega_sor 0 mask35 (Some [1; 1.5]%float) 0 1e-10 [image5]
    = ([image5] ++ ext, Ret (None, 0%Z)).
Proof.
  apply (find_optimal_omega_sor_nonpositive_cap [image5] 0 image5 mask35
           (Some [1; 1.5]%float) 0 1e-10).
  - reflexivity.
  - lia.
Defined.

(** X10: the search checks no shapes either.  With a cap of at least one
    and a mask that has a non-empty axis of another length than the
    image's, the first candidate's SOR run raises IndexError, which ends
    the search with no result; an empty candidate list runs no solver and
    returns [None] with [nIter].  In both cases the arrays of the caller's
    store are unchanged. *)
Theorem find_optimal_omega_sor_shape_mismatch (h : heap) (image : loc)
    (g : ndarray float) (mask : ndarray bool) (nIter : Z) (abstol : float) :
  h !! image = Some g → wf g → ¬ mask_fits mask g → (1 ≤ nIter)%Z →
  (∀ w rest, ∃ ext,
     find_optimal_omega_sor image mask (Some (w :: rest)) nIter abstol h
     = (h ++ ext, Raise IndexError))
  ∧ find_optimal_omega_sor image mask (Some []) nIter abstol h
    = (h, Ret (None, nIter)).
Proof.
  intros Hu W N Hn. split; [|reflexivity].
  intros w rest.
  destruct (inpaint_sor_mask_clash h image g mask abstol nIter w Hu W N Hn)
    as (ext & E).
  exists ext. unfold find_optimal_omega_sor. cbn [omega_loop].
  apply bind_raise. exact E.
Qed.

Lemma find_optimal_omega_sor_shape_mismatch_witness :
  (∀ w rest, ∃ ext,
     find_optimal_omega_sor 0 mask35 (Some (w :: rest)) 10 1e-10 [image5]
     = ([image5] ++ ext, Raise IndexError))
  ∧ find_optimal_omega_sor 0 mask35 (Some []) 10 1e-10 [image5]
    = ([image5], Ret (None, 10%Z)).
Proof.
  apply (find_optimal_omega_sor_shape_mismatch [image5] 0 image5 mask35 10 1e-10).
  - reflexivity.
  - reflexivity.
  - unfold mask_fits. simpl. lia.
  - lia.
Defined.

(** * The demonstration script *)

(** ** The mask of the script *)

Lemma in_slice_spec (lo hi n i : nat) :
  i < n → in_slice lo hi n i = true ↔ lo ≤ i < hi.
Proof.
  intros Hi. unfold in_slice. rewrite bool_decide_eq_true. lia.
Qed.

Lemma in_slice_beyond (lo hi n i : nat) : n ≤ lo → in_slice lo hi n i = false.
Proof.
  intros H. unfold in_slice. apply bool_decide_eq_false. lia.
Qed.

Lemma index_div (c i j : nat) : j < c → (i * c + j) / c = i.
Proof. intros Hj. symmetry. apply (Nat.div_unique _ c i j); lia. Qed.

Lemma index_mod (c i j : nat) : j < c → (i * c + j) mod c = j.
Proof. intros Hj. symmetry. apply (Nat.mod_unique _ c i j); lia. Qed.

Lemma lookup_repeat {A} (x y : A) (n i : nat) :
  repeat x n !! i = Some y ↔ y = x ∧ i < n.
Proof.
  revert i. induction n as [|n IH]; intros i; simpl.
  - split; [discriminate|lia].
  - destruct i as [|i]; simpl.
    + split; [intros [= ->]; split; [reflexivity|lia]|intros [-> _]; reflexivity].
    + rewrite IH. split; intros [? ?]; split; auto; lia.
Qed.

Lemma wf_zeros_like_bool (u : ndarray float) : wf (zeros_like_bool u).
Proof. unfold wf. simpl. apply repeat_length. Qed.

Lemma wf_slice_assign {A} (m : ndarray A) (r0 r1 c0 c1 : nat) (v : A) :
  wf m → wf (slice_assign m r0 r1 c0 c1 v).
Proof. unfold wf. simpl. rewrite length_imap. auto. Qed.

Lemma get_slice_assign {A} (m : ndarray A) (r0 r1 c0 c1 i j : nat) (v x : A) :
  get m i j = Ret x →
  get (slice_assign m r0 r1 c0 c1 v) i j
  = Ret (if decide (r0 ≤ i < r1 ∧ c0 ≤ j < c1) then v else x).
Proof.
  intros Hg. apply get_lookup in Hg as (Hi & Hj & Hx). apply get_lookup.
  cbn [nrows ncols data slice_assign]. split; [exact Hi|]. split; [exact Hj|].
  rewrite list_lookup_imap, Hx. simpl. rewrite index_div, index_mod by exact Hj.
  f_equal. destruct (decide (r0 ≤ i < r1 ∧ c0 ≤ j < c1)) as [[Hr Hc]|N].
  - apply (in_slice_spec r0 r1 (nrows m) i Hi) in Hr.
    apply (in_slice_spec c0 c1 (ncols m) j Hj) in Hc. rewrite Hr, Hc. reflexivity.
  - destruct (in_slice r0 r1 (nrows m) i) eqn:Er;
      destruct (in_slice c0 c1 (ncols m) j) eqn:Ec; try reflexivity.
    apply (in_slice_spec r0 r1 (nrows m) i Hi) in Er.
    apply (in_slice_spec c0 c1 (ncols m) j Hj) in Ec. tauto.
Qed.

Lemma get_zeros_like_bool (u : ndarray float) (i j : nat) :
  i < nrows u → j < ncols u → get (zeros_like_bool u) i j = Ret false.
Proof.
  intros Hi Hj. apply get_lookup. cbn [nrows ncols data zeros_like_bool].
  split; [exact Hi|]. split; [exact Hj|].
  apply lookup_repeat. split; [reflexivity|]. apply index_lt; assumption.
Qed.

Lemma get_script_mask (g : ndarray float) (i j : nat) :
  i < nrows g → j < ncols g →
  get (script_mask g) i j = Ret (bool_decide (in_hole i j)).
Proof.
  intros Hi Hj. unfold script_mask.
  rewrite (get_slice_assign _ 60 70 30 70 i j true false
             (get_zeros_like_bool g i j Hi Hj)).
  unfold in_hole. destruct (decide (60 ≤ i < 70 ∧ 30 ≤ j < 70)) as [H|H].
  - rewrite bool_decide_eq_true_2 by exact H. reflexivity.
  - rewrite bool_decide_eq_false_2 by exact H. reflexivity.
Qed.

Lemma script_mask_small (g : ndarray float) :
  nrows g ≤ 60 ∨ ncols g ≤ 30 → Forall (λ b, b = false) (data (script_mask g)).
Proof.
  intros Small. apply Forall_lookup. intros k b Hk.
  cbn [script_mask data slice_assign zeros_like_bool nrows ncols] in Hk.
  rewrite list_lookup_imap in Hk.
  destruct (repeat false (nrows g * ncols g) !! k) as [x|] eqn:Ex; [|discriminate].
  apply lookup_repeat in Ex as [-> _]. simpl in Hk. injection Hk as <-.
  destruct Small as [S|S].
  - rewrite (in_slice_beyond 60 70 (nrows g)) by exact S. reflexivity.
  - rewrite (in_slice_beyond 30 70 (ncols g)) by exact S.
    rewrite andb_false_r. reflexivity.
Qed.

Lemma wf_script_mask (g : ndarray float) : wf (script_mask g).
Proof. apply wf_slice_assign, wf_zeros_like_bool. Qed.


(** ** Blanking the hole *)

Lemma select_repeat {A B} (bs : list bool) (xs : list A) (v : B) :
  select bs (repeat v (length xs)) = repeat v (length (select bs xs)).
Proof.
  revert xs. induction bs as [|b bs IH]; intros [|x xs]; simpl; try reflexivity.
  destruct b; simpl; rewrite IH; reflexivity.
Qed.

Lemma bool_assign_scalar_run (u : ndarray float) (mask : ndarray bool) (v : float) :
  shape mask = shape u → bool_assign_scalar u mask v = Ret (blank mask v u).
Proof.
  intros Hs. unfold bool_assign_scalar, bool_assign.
  rewrite decide_True by exact Hs.
  rewrite decide_True by apply repeat_length. reflexivity.
Qed.

Lemma wf_blank (mask : ndarray bool) (v : float) (u : ndarray float) :
  wf u → wf (blank mask v u).
Proof. unfold wf, blank. simpl. rewrite length_scatter. auto. Qed.

Lemma get_blank_unmasked (mask : ndarray bool) (v : float) (u : ndarray float)
    (i j : nat) :
  ncols mask = ncols u → get mask i j = Ret false →
  get (blank mask v u) i j = get u i j.
Proof.
  intros Hc Hm. apply get_lookup in Hm as (_ & _ & Hm). rewrite Hc in Hm.
  unfold get, blank. simpl. rewrite scatter_lookup_false by exact Hm. reflexivity.
Qed.

Lemma get_blank_masked (mask : ndarray bool) (v : float) (u : ndarray float)
    (i j : nat) :
  wf u → shape mask = shape u → get mask i j = Ret true →
  get (blank mask v u) i j = Ret v.
Proof.
  intros W Hs Hm. apply shape_eq in Hs as [Hr Hc].
  apply get_lookup in Hm as (Hi & Hj & Hm). rewrite Hr in Hi. rewrite Hc in Hj, Hm.
  assert (Hk : i * ncols u + j < length (data u))
    by (rewrite W; apply index_lt; assumption).
  apply get_lookup. cbn [nrows ncols data blank].
  split; [exact Hi|]. split; [exact Hj|].
  rewrite <- select_repeat.
  rewrite lookup_scatter_select; [|apply repeat_length|exact Hm|exact Hk].
  apply lookup_repeat. auto.
Qed.

Lemma setitem_mask_scalar_run (h : heap) (l : loc) (u : ndarray float)
    (mask : ndarray bool) (v : float) :
  h !! l = Some u → shape mask = shape u →
  setitem_mask_scalar l mask v h = (<[l := blank mask v u]> h, Ret tt).
Proof.
  intros Hl Hs. unfold setitem_mask_scalar. step_with (load_run _ _ _ Hl).
  rewrite bool_assign_scalar_run by exact Hs. rewrite bind_lift. reflexivity.
Qed.

(** ** What the solvers return, on values *)

Lemma jacobi_result_unmasked (mask : ndarray bool) (omega tol : float)
    (max_iter : Z) (its : list Z) (g : ndarray float) :
  shape mask = shape g →
  shape (relax (jacobi_step mask omega) mask tol max_iter its g).1 = shape g
  ∧ ∀ i j, get mask i j = Ret false →
           get (relax (jacobi_step mask omega) mask tol max_iter its g).1 i j
           = get g i j.
Proof.
  intros Hs. apply shape_eq in Hs as [Hr Hc].
  apply (relax_preserves
           (λ G, shape G = shape g
                 ∧ ∀ i j, get mask i j = Ret false → get G i j = get g i j));
    [|split; auto].
  intros x [Sx Ax]. split.
  - rewrite shape_jacobi_step. exact Sx.
  - intros i j Hm. rewrite get_jacobi_step_unmasked; auto.
    apply shape_eq in Sx. lia.
Qed.

Lemma sor_result_unmasked (mask : ndarray bool) (omega tol : float)
    (max_iter : Z) (its : list Z) (g : ndarray float) :
  shape mask = shape g →
  shape (relax (sor_sweep mask omega) mask tol max_iter its g).1 = shape g
  ∧ ∀ i j, get mask i j = Ret false →
           get (relax (sor_sweep mask omega) mask tol max_iter its g).1 i j
           = get g i j.
Proof.
  intros Hs. apply shape_eq in Hs as [Hr Hc].
  apply (relax_preserves
           (λ G, shape G = shape g
                 ∧ ∀ i j, get mask i j = Ret false → get G i j = get g i j));
    [|split; auto].
  intros x [Sx Ax]. split.
  - rewrite shape_sor_sweep. exact Sx.
  - intros i j Hm. unfold sor_sweep. rewrite get_sor_fold_unmasked; auto.
    apply shape_eq in Sx. lia.
Qed.

Lemma relax_unmasked (step : ndarray float → ndarray float) (mask : ndarray bool)
    (tol : float) (max_iter : Z) (u : ndarray float) :
  Forall (λ b, b = false) (data mask) → (1 ≤ max_iter)%Z → (0 <? tol)%float = true →
  relax step mask tol max_iter (range_Z max_iter) u = (step u, 1%Z).
Proof.
  intros F Hn Ht. destruct (range_Z_pos max_iter Hn) as [its ->].
  cbn [relax]. rewrite change_unmasked, Ht by exact F. reflexivity.
Qed.

(** ** Running the script *)

(** The script never fails on a well-formed image of at least two rows
    and two columns: it allocates the damaged copy and the arrays of the
    two solver runs, and changes nothing else. *)
Lemma main_run (h : heap) (image : loc) (g : ndarray float) :
  h !! image = Some g → wf g → 2 ≤ nrows g → 2 ≤ ncols g →
  ∃ ext rj rs,
    main image h
    = (h ++ blank (script_mask g) 0 g :: ext,
       Ret (script_mask g, length h,
            (rj, (relax (jacobi_step (script_mask g) 1) (script_mask g) 1e-10 1000
                    (range_Z 1000) (blank (script_mask g) 0 g)).2),
            (rs, (relax (sor_sweep (script_mask g) 1) (script_mask g) 1e-10 1000
                    (range_Z 1000) (blank (script_mask g) 0 g)).2)))
    ∧ (h ++ blank (script_mask g) 0 g :: ext) !! rj
      = Some (relax (jacobi_step (script_mask g) 1) (script_mask g) 1e-10 1000
                (range_Z 1000) (blank (script_mask g) 0 g)).1
    ∧ (h ++ blank (script_mask g) 0 g :: ext) !! rs
      = Some (relax (sor_sweep (script_mask g) 1) (script_mask g) 1e-10 1000
                (range_Z 1000) (blank (script_mask g) 0 g)).1.
Proof.
  intros Hu W H2r H2c. unfold main.
  set (mask := script_mask g). set (Gd := blank mask 0 g).
  step_with (load_run _ _ _ Hu). rewrite decide_True by (split; assumption).
  fold (script_mask g). fold mask.
  step_with (ndarray_copy_run _ _ _ Hu).
  assert (Hs : shape mask = shape g) by reflexivity.
  rewrite (bind_ret _ _ _ _ _
             (setitem_mask_scalar_run (h ++ [g]) (length h) g mask 0
                (lookup_fresh h g) Hs)).
  rewrite insert_fresh. fold Gd.
  assert (V : valid_input (h ++ [Gd]) (length h) Gd mask).
  { split; [apply lookup_fresh|]. split; [apply wf_blank, W|].
    split; [apply wf_script_mask|reflexivity]. }
  destruct (inpaint_jacobi_run _ _ _ _ 1e-10 1000 1 V) as (ext1 & rj & E1 & Hj & _).
  step_with E1.
  destruct (inpaint_sor_run _ _ _ _ 1e-10 1000 1
              (valid_input_extend _ ext1 _ _ _ V)) as (ext2 & E2).
  step_with E2.
  eexists (ext1 ++ _ :: ext2), rj, (length ((h ++ [Gd]) ++ ext1)).
  assert (Eh : ∀ x, h ++ Gd :: ext1 ++ x :: ext2 = ((h ++ [Gd]) ++ ext1) ++ x :: ext2)
    by (intros x; rewrite <- !app_assoc; reflexivity).
  rewrite Eh. split; [reflexivity|]. split.
  - apply lookup_old. exact Hj.
  - apply lookup_fresh_mid.
Qed.

(** X12: on every well-formed image of at least two rows and two columns
    (the files [np.loadtxt] reads as a two-dimensional array) the script
    runs to its end without an exception and leaves the loaded image as
    it was.  The damaged copy
    is 0.0 at the cells of the hole and equal to the image elsewhere; the
    two refined images equal the image at every cell outside the hole;
    each solver reports between 1 and 1000 iterations. *)
Theorem script_fills_only_the_hole (h : heap) (image : loc) (g : ndarray float) :
  h !! image = Some g → wf g → 2 ≤ nrows g → 2 ≤ ncols g →
  ∃ ext mask d rj nj rs ns Gd Gj Gs,
    main image h = (h ++ ext, Ret (mask, d, (rj, nj), (rs, ns)))
    ∧ (h ++ ext) !! d = Some Gd
    ∧ (h ++ ext) !! rj = Some Gj
    ∧ (h ++ ext) !! rs = Some Gs
    ∧ (∀ i j, i < nrows g → j < ncols g → in_hole i j → get Gd i j = Ret 0%float)
    ∧ (∀ i j, ¬ in_hole i j →
              get Gd i j = get g i j ∧ get Gj i j = get g i j ∧ get Gs i j = get g i j)
    ∧ (1 ≤ nj ≤ 1000)%Z ∧ (1 ≤ ns ≤ 1000)%Z.
Proof.
  intros Hu W H2r H2c.
  destruct (main_run h image g Hu W H2r H2c) as (ext & rj & rs & E & Hj & Hs).
  set (mask := script_mask g) in *. set (Gd := blank mask 0 g) in *.
  assert (Sm : shape mask = shape Gd) by reflexivity.
  destruct (jacobi_result_unmasked mask 1 1e-10 1000 (range_Z 1000) Gd Sm) as [SJ AJ].
  destruct (sor_result_unmasked mask 1 1e-10 1000 (range_Z 1000) Gd Sm) as [SS AS].
  eexists (Gd :: ext), mask, (length h), rj, _, rs, _, Gd, _, _.
  split; [exact E|]. split; [apply lookup_fresh_mid|].
  split; [exact Hj|]. split; [exact Hs|]. split; [|split; [|split]].
  - intros i j Hi Hj' Hole. apply get_blank_masked; [exact W|reflexivity|].
    unfold mask. rewrite get_script_mask by assumption.
    rewrite bool_decide_eq_true_2 by exact Hole. reflexivity.
  - intros i j Out.
    destruct (decide (i < nrows g ∧ j < ncols g)) as [[Hi Hj']|Far].
    + assert (Hm : get mask i j = Ret false).
      { unfold mask. rewrite get_script_mask by assumption.
        rewrite bool_decide_eq_false_2 by exact Out. reflexivity. }
      assert (Hd : get Gd i j = get g i j)
        by (apply get_blank_unmasked; [reflexivity|exact Hm]).
      split; [exact Hd|]. rewrite AJ, AS by exact Hm. auto.
    + apply shape_eq in SJ as [SJr SJc]. apply shape_eq in SS as [SSr SSc].
      rewrite !get_out_of_range; auto.
      * rewrite SSr, SSc. exact Far.
      * rewrite SJr, SJc. exact Far.
  - split; [apply relax_count_ge; lia|apply relax_count_le].
  - split; [apply relax_count_ge; lia|apply relax_count_le].
Qed.

Lemma script_fills_only_the_hole_witness :
  ∃ ext mask d rj nj rs ns Gd Gj Gs,
    main 0 [image_62_32] = ([image_62_32] ++ ext, Ret (mask, d, (rj, nj), (rs, ns)))
    ∧ ([image_62_32] ++ ext) !! d = Some Gd
    ∧ ([image_62_32] ++ ext) !! rj = Some Gj
    ∧ ([image_62_32] ++ ext) !! rs = Some Gs
    ∧ (∀ i j, i < nrows image_62_32 → j < ncols image_62_32 → in_hole i j →
              get Gd i j = Ret 0%float)
    ∧ (∀ i j, ¬ in_hole i j →
              get Gd i j = get image_62_32 i j
              ∧ get Gj i j = get image_62_32 i j
              ∧ get Gs i j = get image_62_32 i j)
    ∧ (1 ≤ nj ≤ 1000)%Z ∧ (1 ≤ ns ≤ 1000)%Z.
Proof.
  apply (script_fills_only_the_hole [image_62_32] 0 image_62_32).
  - reflexivity.
  - unfold wf, image_62_32. cbn [data nrows ncols]. apply repeat_length.
  - simpl. lia.
  - simpl. lia.
Defined.

(** X13: on a well-formed image of at least two rows and two columns
    that has at most 60 rows or at most 30 columns the hole lies outside
    the image: the damaged copy and both
    refined images equal the image, and each solver returns after its
    first iteration, reporting the count 1. *)
Theorem script_on_image_without_hole (h : heap) (image : loc) (g : ndarray float) :
  h !! image = Some g → wf g → 2 ≤ nrows g → 2 ≤ ncols g →
  nrows g ≤ 60 ∨ ncols g ≤ 30 →
  ∃ ext mask d rj rs,
    main image h = (h ++ ext, Ret (mask, d, (rj, 1%Z), (rs, 1%Z)))
    ∧ (h ++ ext) !! d = Some g
    ∧ (h ++ ext) !! rj = Some g
    ∧ (h ++ ext) !! rs = Some g.
Proof.
  intros Hu W H2r H2c Small.
  destruct (main_run h image g Hu W H2r H2c) as (ext & rj & rs & E & Hj & Hs).
  pose proof (script_mask_small g Small) as F.
  assert (Eb : blank (script_mask g) 0 g = g).
  { unfold blank. rewrite select_all_false by exact F. simpl.
    rewrite scatter_nil_vals. destruct g; reflexivity. }
  rewrite Eb in E, Hj, Hs.
  assert (T : (0 <? 1e-10)%float = true) by reflexivity.
  rewrite (relax_unmasked (jacobi_step (script_mask g) 1) (script_mask g) 1e-10
             1000 g F ltac:(lia) T)
    in E, Hj.
  rewrite (relax_unmasked (sor_sweep (script_mask g) 1) (script_mask g) 1e-10
             1000 g F ltac:(lia) T)
    in E, Hs.
  cbn [fst snd] in E, Hj, Hs.
  rewrite jacobi_step_unmasked in Hj by exact F.
  rewrite sor_sweep_unmasked in Hs by exact F.
  exists (g :: ext), (script_mask g), (length h), rj, rs.
  split; [exact E|]. split; [apply lookup_fresh_mid|]. split; assumption.
Qed.

Lemma script_on_image_without_hole_witness :
  ∃ ext mask d rj rs,
    main 0 [image_4_80] = ([image_4_80] ++ ext, Ret (mask, d, (rj, 1%Z), (rs, 1%Z)))
    ∧ ([image_4_80] ++ ext) !! d = Some image_4_80
    ∧ ([image_4_80] ++ ext) !! rj = Some image_4_80
    ∧ ([image_4_80] ++ ext) !! rs = Some image_4_80.
Proof.
  apply (script_on_image_without_hole [image_4_80] 0 image_4_80).
  - reflexivity.
  - reflexivity.
  - simpl. lia.
  - simpl. lia.
  - left. simpl. lia.
Defined.

(** A file of one line is read as a one-dimensional array, which the
    two-dimensional slice of the script refuses. *)
Example main_single_row : main 0 [row4] = ([row4], Raise IndexError).
Proof. reflexivity. Qed.

(** * The guessing game *)

Lemma guess_loop_wins (x r g : Z) (wrong : list Z) (rest : list (option Z)) :
  g ≠ r → Forall (λ n, n ≠ r) wrong →
  Guess.guess_loop x r g (map Some wrong ++ Some r :: rest)
  = (Guess.rounds x r wrong ++ [Guess.Prompt x; Guess.Congratulations],
     Guess.Returned, rest).
Proof.
  intros Hg F. revert g Hg. induction F as [|n wrong Hn _ IH]; intros g Hg.
  - cbn [map app Guess.guess_loop]. rewrite (proj2 (Z.eqb_neq g r) Hg).
    destruct rest; cbn [Guess.guess_loop]; rewrite Z.eqb_refl;
      unfold Guess.hint; rewrite !Z.ltb_irrefl; reflexivity.
  - cbn [map app Guess.guess_loop]. rewrite (proj2 (Z.eqb_neq g r) Hg).
    rewrite (IH n Hn). cbn [Guess.rounds flat_map].
    rewrite <- !app_assoc. reflexivity.
Qed.

(** X14: when the lines typed are wrong guesses followed by the number,
    [guess] asks once per guess, answers each wrong guess with "Too low"
    if it is below the number and "Too high" if it is above, congratulates
    after the right one and returns, leaving the later lines unread. *)
Theorem guess_wins_at_first_right_guess (x r : Z) (wrong : list Z)
    (rest : list (option Z)) :
  (1 ≤ r ≤ x)%Z → Forall (λ n, n ≠ r) wrong →
  Guess.guess x r (map Some wrong ++ Some r :: rest)
  = (Guess.rounds x r wrong ++ [Guess.Prompt x; Guess.Congratulations],
     Guess.Returned, rest)
  ∧ Forall (λ n, Guess.hint r n = if (n <? r)%Z then [Guess.TooLow] else [Guess.TooHigh])
      wrong.
Proof.
  intros Hr F. split.
  - unfold Guess.guess. rewrite (proj2 (Z.ltb_ge x 1)) by lia.
    apply guess_loop_wins; [lia|exact F].
  - eapply Forall_impl; [exact F|]. intros n Hn. simpl in Hn. unfold Guess.hint.
    destruct (Z.ltb_spec n r); [reflexivity|].
    rewrite (proj2 (Z.ltb_lt r n)) by lia. reflexivity.
Qed.

Lemma guess_wins_at_first_right_guess_witness :
  Guess.guess 20 7 (map Some [10; 5; 8]%Z ++ Some 7%Z :: [Some 3%Z])
  = (Guess.rounds 20 7 [10; 5; 8]%Z ++ [Guess.Prompt 20; Guess.Congratulations],
     Guess.Returned, [Some 3%Z])
  ∧ Forall (λ n, Guess.hint 7 n = if (n <? 7)%Z then [Guess.TooLow] else [Guess.TooHigh])
      [10; 5; 8]%Z.
Proof.
  apply (guess_wins_at_first_right_guess 20 7 [10; 5; 8]%Z [Some 3%Z]).
  - lia.
  - repeat constructor; lia.
Defined.

Lemma guess_loop_fails (x r g : Z) (wrong : list Z) :
  g ≠ r → Forall (λ n, n ≠ r) wrong →
  Guess.guess_loop x r g (map Some wrong)
  = (Guess.rounds x r wrong ++ [Guess.Prompt x], Guess.Raised Guess.EOFError, [])
  ∧ ∀ rest,
      Guess.guess_loop x r g (map Some wrong ++ None :: rest)
      = (Guess.rounds x r wrong ++ [Guess.Prompt x],
         Guess.Raised Guess.ValueError, rest).
Proof.
  intros Hg F. revert g Hg. induction F as [|n wrong Hn _ IH]; intros g Hg.
  - cbn [map app Guess.guess_loop]. rewrite (proj2 (Z.eqb_neq g r) Hg).
    split; [reflexivity|intros rest; reflexivity].
  - cbn [map app Guess.guess_loop]. rewrite (proj2 (Z.eqb_neq g r) Hg).
    destruct (IH n Hn) as [E1 E2]. rewrite E1. split.
    + cbn [Guess.rounds flat_map]. rewrite <- !app_assoc. reflexivity.
    + intros rest. rewrite E2. cbn [Guess.rounds flat_map].
      rewrite <- !app_assoc. reflexivity.
Qed.

Lemma rounds_no_congratulations (x r : Z) (guesses : list Z) :
  Guess.Congratulations ∉ Guess.rounds x r guesses ++ [Guess.Prompt x].
Proof.
  intros H. apply elem_of_app in H as [H|H].
  - unfold Guess.rounds in H. apply list_elem_of_In, in_flat_map in H as (n & _ & H).
    destruct H as [H|H]; [discriminate|]. unfold Guess.hint in H.
    destruct (n <? r)%Z; [|destruct (r <? n)%Z]; simpl in H;
      try destruct H as [H|[]]; try discriminate; contradiction.
  - apply list_elem_of_singleton in H. discriminate.
Qed.

(** X15: when the lines typed are wrong guesses only, [guess] never
    congratulates and never returns.  It asks once more after the last
    guess and ends in EOFError when the input ends there, and in
    ValueError when the next line is not an integer, the lines after that
    one being left unread. *)
Theorem guess_fails_without_right_guess (x r : Z) (wrong : list Z) :
  (1 ≤ r ≤ x)%Z → Forall (λ n, n ≠ r) wrong →
  Guess.guess x r (map Some wrong)
  = (Guess.rounds x r wrong ++ [Guess.Prompt x], Guess.Raised Guess.EOFError, [])
  ∧ (∀ rest,
       Guess.guess x r (map Some wrong ++ None :: rest)
       = (Guess.rounds x r wrong ++ [Guess.Prompt x],
          Guess.Raised Guess.ValueError, rest))
  ∧ Guess.Congratulations ∉ Guess.rounds x r wrong ++ [Guess.Prompt x].
Proof.
  intros Hr F. unfold Guess.guess. rewrite (proj2 (Z.ltb_ge x 1)) by lia.
  destruct (guess_loop_fails x r 0 wrong ltac:(lia) F) as [E1 E2].
  split; [exact E1|]. split; [exact E2|apply rounds_no_congratulations].
Qed.

Lemma guess_fails_without_right_guess_witness :
  Guess.guess 20 7 (map Some [10; 5]%Z)
  = (Guess.rounds 20 7 [10; 5]%Z ++ [Guess.Prompt 20],
     Guess.Raised Guess.EOFError, [])
  ∧ (∀ rest,
       Guess.guess 20 7 (map Some [10; 5]%Z ++ None :: rest)
       = (Guess.rounds 20 7 [10; 5]%Z ++ [Guess.Prompt 20],
          Guess.Raised Guess.ValueError, rest))
  ∧ Guess.Congratulations ∉ Guess.rounds 20 7 [10; 5]%Z ++ [Guess.Prompt 20].
Proof.
  apply (guess_fails_without_right_guess 20 7 [10; 5]%Z).
  - lia.
  - repeat constructor; lia.
Defined.

(** * Masks of another shape than the array *)

Lemma bool_assign_empty_axis (u : ndarray float) (mask : ndarray bool) :
  shape mask ≠ shape u → mask_fits mask u → bool_assign u mask [] = Ret u.
Proof.
  intros Hs F. unfold bool_assign. rewrite decide_False by exact Hs.
  rewrite decide_True by exact F. reflexivity.
Qed.

Lemma step_jacobi_2D_empty_axis (h : heap) (u : loc) (g : ndarray float)
    (mask : ndarray bool) (omega : float) :
  h !! u = Some g → shape mask ≠ shape g → mask_fits mask g →
  step_jacobi_2D u mask omega h = (h ++ [g], Ret (length h)).
Proof.
  intros Hu Hs F. unfold step_jacobi_2D.
  step_with (ndarray_copy_run _ _ _ Hu).
  step_with (load_run _ _ _ (lookup_old _ [g] _ _ Hu)).
  fold (neighbor_average g).
  rewrite (bool_index_empty_axis g mask Hs F), bind_lift.
  rewrite (bool_index_empty_axis (neighbor_average g) mask), bind_lift;
    [|rewrite shape_neighbor_average; exact Hs
     |unfold mask_fits; destruct g; exact F].
  cbn [vec_scale vec_add map zip_with]. unfold setitem_mask.
  rewrite (bind_ret _ (λ _, mret (length h)) (h ++ [g]) (h ++ [g]) tt);
    [reflexivity|].
  step_with (load_run _ _ _ (lookup_fresh h g)).
  rewrite (bool_assign_empty_axis g mask Hs F), bind_lift.
  unfold store. rewrite insert_fresh. reflexivity.
Qed.

(** X16: [step_jacobi_2D] makes its copy before it looks at the mask.  With
    a mask of another shape than the array, it raises IndexError when an
    axis of the mask is non-empty and differs in length from the array's;
    when the differing axes of the mask are empty, the mask selects
    nothing and the stepper returns the copy, equal to the array.  In both
    cases the array it was given is unchanged. *)
Theorem step_jacobi_2D_shape_mismatch (h : heap) (u : loc) (g : ndarray float)
    (mask : ndarray bool) (omega : float) :
  h !! u = Some g → shape mask ≠ shape g →
  (¬ mask_fits mask g →
   step_jacobi_2D u mask omega h = (h ++ [g], Raise IndexError))
  ∧ (mask_fits mask g →
     step_jacobi_2D u mask omega h = (h ++ [g], Ret (length h))).
Proof.
  intros Hu Hs. split.
  - intros N. unfold step_jacobi_2D.
    step_with (ndarray_copy_run _ _ _ Hu).
    step_with (load_run _ _ _ (lookup_old _ [g] _ _ Hu)).
    rewrite (bool_index_clash g mask N), bind_lift. reflexivity.
  - intros F. apply step_jacobi_2D_empty_axis; assumption.
Qed.

Lemma step_jacobi_2D_shape_mismatch_witness :
  (¬ mask_fits mask05 image35 →
   step_jacobi_2D 0 mask05 1 [image35] = ([image35] ++ [image35], Raise IndexError))
  ∧ (mask_fits mask05 image35 →
     step_jacobi_2D 0 mask05 1 [image35]
     = ([image35] ++ [image35], Ret (length [image35]))).
Proof.
  apply (step_jacobi_2D_shape_mismatch [image35] 0 image35 mask05 1).
  - reflexivity.
  - discriminate.
Defined.

(** ** The solvers and a mask with an empty axis *)

Lemma jacobi_loop_empty_axis (its : list Z) (h : heap) (u : loc)
    (g : ndarray float) (mask : ndarray bool) (tol : float) (max_iter : Z)
    (omega : float) :
  h !! u = Some g → shape mask ≠ shape g → mask_fits mask g →
  ∃ ext r,
    jacobi_loop its u mask tol max_iter omega h
    = (h ++ ext,
       Ret (r, match its with
               | [] => max_iter
               | it :: _ => if (0 <? tol)%float then (it + 1)%Z else max_iter
               end))
    ∧ (h ++ ext) !! r = Some g.
Proof.
  intros Hu Hs F. revert h u Hu. induction its as [|it its IH]; intros h u Hu.
  - exists [], u. simpl. rewrite app_nil_r. auto.
  - cbn [jacobi_loop].
    step_with (step_jacobi_2D_empty_axis h u g mask omega Hu Hs F).
    step_with (load_run _ _ _ (lookup_fresh h g)).
    rewrite (bool_index_empty_axis g mask Hs F), bind_lift.
    step_with (load_run _ _ _ (lookup_old h [g] u g Hu)).
    rewrite (bool_index_empty_axis g mask Hs F), bind_lift.
    change (norm (vec_sub [] [])) with 0%float.
    destruct (0 <? tol)%float eqn:Et.
    + exists [g], (length h). split; [reflexivity|apply lookup_fresh].
    + destruct (IH (h ++ [g]) (length h) (lookup_fresh h g)) as (ext & r & E & Hr).
      exists (g :: ext), r. rewrite <- app_assoc in E, Hr. cbn [app] in E, Hr.
      split; [|exact Hr]. rewrite E. destruct its; rewrite ?Et; reflexivity.
Qed.

Lemma step_sor_2D_small (h : heap) (u : loc) (g : ndarray float)
    (mask : ndarray bool) (omega : float) :
  h !! u = Some g → nrows g < 3 ∨ ncols g < 3 →
  step_sor_2D u mask omega h = (h, Ret u).
Proof.
  intros Hu Small. unfold step_sor_2D. step_with (load_run _ _ _ Hu). unfold shape.
  rewrite bind_run, for__nested. fold (sor_cells (nrows g) (ncols g)).
  rewrite sor_cells_small by exact Small. reflexivity.
Qed.

Lemma sor_loop_empty_axis (its : list Z) (h : heap) (u : loc)
    (g : ndarray float) (mask : ndarray bool) (tol : float) (max_iter : Z)
    (omega : float) :
  h !! u = Some g → shape mask ≠ shape g → mask_fits mask g →
  nrows g < 3 ∨ ncols g < 3 →
  ∃ ext,
    sor_loop its u mask tol max_iter omega h
    = (h ++ ext,
       Ret (u, match its with
               | [] => max_iter
               | it :: _ => if (0 <? tol)%float then (it + 1)%Z else max_iter
               end)).
Proof.
  intros Hu Hs F Small. revert h Hu. induction its as [|it its IH]; intros h Hu.
  - exists []. simpl. rewrite app_nil_r. reflexivity.
  - cbn [sor_loop]. step_with (ndarray_copy_run _ _ _ Hu).
    step_with (step_sor_2D_small (h ++ [g]) u g mask omega
                 (lookup_old h [g] u g Hu) Small).
    step_with (load_run _ _ _ (lookup_old h [g] u g Hu)).
    rewrite (bool_index_empty_axis g mask Hs F), bind_lift.
    step_with (load_run _ _ _ (lookup_fresh h g)).
    rewrite (bool_index_empty_axis g mask Hs F), bind_lift.
    change (norm (vec_sub [] [])) with 0%float.
    destruct (0 <? tol)%float eqn:Et.
    + exists [g]. reflexivity.
    + destruct (IH (h ++ [g]) (lookup_old h [g] u g Hu)) as (ext & E).
      exists (g :: ext). rewrite <- app_assoc in E. cbn [app] in E.
      rewrite E. destruct its; rewrite ?Et; reflexivity.
Qed.

Lemma step_sor_2D_uncovered (h : heap) (u : loc) (g : ndarray float)
    (mask : ndarray bool) (omega : float) (i j : nat) :
  h !! u = Some g → wf g → wf mask →
  interior g i j → ¬ (i < nrows mask ∧ j < ncols mask) →
  ∃ g', step_sor_2D u mask omega h = (<[u := g']> h, Raise IndexError).
Proof.
  intros Hu W Wm I N.
  destruct (sor_cells_loop_uncovered (sor_cells (nrows g) (ncols g)) h u g
              mask omega Hu W Wm) as (g' & E & _).
  { apply Forall_forall. intros [a b] Hin. apply elem_of_sor_cells in Hin. exact Hin. }
  { apply Exists_exists. exists (i, j). split; [|exact N].
    apply elem_of_sor_cells. exact I. }
  exists g'. unfold step_sor_2D. step_with (load_run _ _ _ Hu). unfold shape.
  apply bind_raise. rewrite for__nested. exact E.
Qed.

(** X17: a mask of another shape than the image whose differing axes are
    empty passes numpy's boolean indexing and selects nothing.  With a cap
    of at least one, [inpaint_jacobi] then returns a grid equal to the
    image, with the count 1 when the tolerance is positive and [max_iter]
    otherwise; [inpaint_sor] does the same on an image with fewer than
    three rows or columns, and on an image with interior cells raises
    IndexError when its sweep reads the mask at the first of them. *)
Theorem solvers_with_empty_mask_axis (h : heap) (image : loc)
    (g : ndarray float) (mask : ndarray bool) (tol : float) (max_iter : Z)
    (omega : float) :
  h !! image = Some g → wf g → wf mask →
  shape mask ≠ shape g → mask_fits mask g → (1 ≤ max_iter)%Z →
  (∃ ext r,
     inpaint_jacobi image mask tol max_iter omega h
     = (h ++ ext, Ret (r, if (0 <? tol)%float then 1%Z else max_iter))
     ∧ (h ++ ext) !! r = Some g)
  ∧ (nrows g < 3 ∨ ncols g < 3 →
     ∃ ext r,
       inpaint_sor image mask tol max_iter omega h
       = (h ++ ext, Ret (r, if (0 <? tol)%float then 1%Z else max_iter))
       ∧ (h ++ ext) !! r = Some g)
  ∧ (3 ≤ nrows g ∧ 3 ≤ ncols g →
     ∃ ext,
       inpaint_sor image mask tol max_iter omega h = (h ++ ext, Raise IndexError)).
Proof.
  intros Hu W Wm Hs F Hn. destruct (range_Z_pos max_iter Hn) as [its Hits].
  split; [|split].
  - unfold inpaint_jacobi. step_with (ndarray_copy_run _ _ _ Hu). rewrite Hits.
    destruct (jacobi_loop_empty_axis (0%Z :: its) (h ++ [g]) (length h) g mask
                tol max_iter omega (lookup_fresh h g) Hs F) as (ext & r & E & Hr).
    exists (g :: ext), r. rewrite <- app_assoc in E, Hr. cbn [app] in E, Hr.
    split; [exact E|exact Hr].
  - intros Small. unfold inpaint_sor. step_with (ndarray_copy_run _ _ _ Hu).
    rewrite Hits.
    destruct (sor_loop_empty_axis (0%Z :: its) (h ++ [g]) (length h) g mask
                tol max_iter omega (lookup_fresh h g) Hs F Small) as (ext & E).
    exists (g :: ext), (length h). rewrite <- app_assoc in E. cbn [app] in E.
    split; [exact E|apply lookup_fresh_mid].
  - intros [H3r H3c]. unfold inpaint_sor. step_with (ndarray_copy_run _ _ _ Hu).
    rewrite Hits. cbn [sor_loop].
    step_with (ndarray_copy_run _ _ _ (lookup_fresh h g)).
    destruct (step_sor_2D_uncovered ((h ++ [g]) ++ [g]) (length h) g mask omega 1 1)
      as (g' & E).
    + apply lookup_old, lookup_fresh.
    + exact W.
    + exact Wm.
    + unfold interior. lia.
    + intros [H1 H2]. apply Hs. destruct F as [[Fr|Fr] [Fc|Fc]]; try lia.
      unfold shape. rewrite Fr, Fc. reflexivity.
    + exists [g'; g]. rewrite (bind_raise _ _ _ _ _ E).
      rewrite <- app_assoc. simpl. rewrite insert_fresh. reflexivity.
Qed.

Lemma solvers_with_empty_mask_axis_witness :
  (∃ ext r,
     inpaint_jacobi 0 mask04 1e-10 5 1 [image24]
     = ([image24] ++ ext, Ret (r, if (0 <? 1e-10)%float then 1%Z else 5%Z))
     ∧ ([image24] ++ ext) !! r = Some image24)
  ∧ (nrows image24 < 3 ∨ ncols image24 < 3 →
     ∃ ext r,
       inpaint_sor 0 mask04 1e-10 5 1 [image24]
       = ([image24] ++ ext, Ret (r, if (0 <? 1e-10)%float then 1%Z else 5%Z))
       ∧ ([image24] ++ ext) !! r = Some image24)
  ∧ (3 ≤ nrows image24 ∧ 3 ≤ ncols image24 →
     ∃ ext,
       inpaint_sor 0 mask04 1e-10 5 1 [image24] = ([image24] ++ ext, Raise IndexError)).
Proof.
  apply (solvers_with_empty_mask_axis [image24] 0 image24 mask04 1e-10 5 1).
  - reflexivity.
  - reflexivity.
  - reflexivity.
  - discriminate.
  - unfold mask_fits. simpl. lia.
  - lia.
Defined.

Example inpaint_jacobi_mask_without_rows :
  (inpaint_jacobi 0 mask05 1e-10 5 1 [image35]).2 = Ret (2, 1%Z)
  ∧ (inpaint_sor 0 mask05 1e-10 5 1 [image35]).2 = Raise IndexError
  ∧ (find_optimal_omega_sor 0 mask04 (Some [1%float]) 5 1e-10 [image24]).2
    = Ret (Some 1%float, 1%Z).
Proof. repeat split; reflexivity. Qed.
